(** * Shard-DDL optimism keepers: [LockKeeper] and [TableKeeper]

    A shallow embedding of [pkg/shardddl/optimism/keeper.go].

    - [TableKeeper] owns its two map levels (they are created by [make]
      inside the keeper and never handed out), so they are embedded as
      nested finite maps and every method is a function from keeper state
      to keeper state and result.
    - [LockKeeper] hands out [*Lock] pointers and copies of its map, so it
      is embedded over an explicit memory of [Lock] objects and of
      [map[string]*Lock] objects; every method is a computation in a small
      state-and-failure monad over that memory.
    - The mutexes only serialise the methods; each method body is embedded
      as one atomic step. *)

From Stdlib Require OrdersEx.
From stdpp Require Import gmap strings list fin_maps sorting.

(** ** Go runtime pieces used by the package *)

(** [fmt.Sprintf("%s-%s", a, b)]. *)
Definition Sprintf_s_dash_s (a b : string) : string := a +:+ "-" +:+ b.

(** Go's [<] on strings: byte-wise lexicographic comparison. *)
Definition string_lt (a b : string) : bool := String.ltb a b.

(** ** Table sets *)

(** Modelled from the spec: the [SourceTables] struct (its declaration is
    in the package's table file).  Spec, Table Set: task; source; mapping
    from upstream schema name to set of table names; a deletion tombstone
    flag.  The table mapping is never nil.  [keeper.go] reads the fields
    [Task], [Source] and [IsDeleted]. *)
Record SourceTables := mkSourceTables {
  st_Task : string;
  st_Source : string;
  st_Tables : gmap string (gset string);
  st_IsDeleted : bool
}.

(** Modelled from the spec: [NewSourceTables(task, source, tables)], the
    constructor of a live (not tombstoned) table set. *)
Definition NewSourceTables (task source : string)
    (tables : gmap string (gset string)) : SourceTables :=
  {| st_Task := task; st_Source := source;
     st_Tables := tables; st_IsDeleted := false |}.

(** Whether [schema.table] is recorded in a table set. *)
Definition st_has (st : SourceTables) (schema table : string) : bool :=
  match st_Tables st !! schema with
  | Some ts => bool_decide (table ∈ ts)
  | None => false
  end.

(** Modelled from the spec: [SourceTables.AddTable(schema, table)] (pointer receiver);
    it returns whether the table was newly added (false if already
    present).  The receiver is updated in place: the updated value is the
    first component. *)
Definition SourceTables_AddTable (st : SourceTables) (schema table : string)
    : SourceTables * bool :=
  let ts := default ∅ (st_Tables st !! schema) in
  if bool_decide (table ∈ ts) then (st, false)
  else ({| st_Task := st_Task st; st_Source := st_Source st;
           st_Tables := <[schema := {[table]} ∪ ts]> (st_Tables st);
           st_IsDeleted := st_IsDeleted st |}, true).

(** Modelled from the spec: [SourceTables.RemoveTable(schema, table)] (pointer receiver);
    it returns false if the schema or the table is absent, otherwise it
    removes the table and returns true. *)
Definition SourceTables_RemoveTable (st : SourceTables) (schema table : string)
    : SourceTables * bool :=
  match st_Tables st !! schema with
  | None => (st, false)
  | Some ts =>
      if bool_decide (table ∈ ts) then
        ({| st_Task := st_Task st; st_Source := st_Source st;
            st_Tables := <[schema := ts ∖ {[table]}]> (st_Tables st);
            st_IsDeleted := st_IsDeleted st |}, true)
      else (st, false)
  end.

(** ** [sort.Interface] and [sort.Sort] *)

(** The three methods [sort.Sort] is given.  An index out of range makes
    the Go method panic: the result is [None]. *)
Class sort_Interface (T : Type) := {
  Len : T → nat;
  Less : T → nat → nat → option bool;
  Swap : T → nat → nat → option T
}.

Abbreviation SourceTablesSlice := (list SourceTables).

(** [Len], [Less] and [Swap] of [SourceTablesSlice]. *)
Definition SourceTablesSlice_Len (t : SourceTablesSlice) : nat := length t.

Definition SourceTablesSlice_Less (t : SourceTablesSlice) (i j : nat)
    : option bool :=
  a ← t !! i; b ← t !! j; Some (string_lt (st_Source a) (st_Source b)).

(** [t[i], t[j] = t[j], t[i]]: both reads, then the store to [t[i]], then
    the store to [t[j]]. *)
Definition SourceTablesSlice_Swap (t : SourceTablesSlice) (i j : nat)
    : option SourceTablesSlice :=
  a ← t !! i; b ← t !! j; Some (<[j := a]> (<[i := b]> t)).

#[global] Instance SourceTablesSlice_Interface : sort_Interface SourceTablesSlice := {
  Len := SourceTablesSlice_Len;
  Less := SourceTablesSlice_Less;
  Swap := SourceTablesSlice_Swap
}.

Section sort.
Context {T : Type} `{!sort_Interface T}.

(** The inner loop of the standard library's [insertionSort]:
    [for j := i; j > a && data.Less(j, j-1); j-- { data.Swap(j, j-1) }]
    with [a = 0]. *)
Fixpoint insertionSort_inner (data : T) (j : nat) : option T :=
  match j with
  | 0 => Some data
  | S j' =>
      b ← Less data j j';
      if b : bool then data' ← Swap data j j'; insertionSort_inner data' j'
      else Some data
  end.

(** The outer loop [for i := a + 1; i < b; i++], as [k] remaining
    iterations starting at index [i]. *)
Fixpoint insertionSort_outer (data : T) (i k : nat) : option T :=
  match k with
  | 0 => Some data
  | S k' =>
      data' ← insertionSort_inner data i;
      insertionSort_outer data' (S i) k'
  end.

Definition insertionSort (data : T) (a b : nat) : option T :=
  insertionSort_outer data (a + 1) (b - (a + 1)).

(** [sort.Sort(data)].  The standard library sorts short ranges with
    [insertionSort] and longer ones with a quicksort that calls the same
    three methods; the embedding uses [insertionSort] on the whole range
    [0 .. Len).  [sort.Sort] is not stable and the statements below do not
    depend on the order of elements with equal keys. *)
Definition sort_Sort (data : T) : option T :=
  insertionSort data 0 (Len data).
End sort.

(** [a] may stand before [b] in increasing order of [Source]:
    [Less] does not put [b] before [a]. *)
Definition Source_le (a b : SourceTables) : Prop :=
  string_lt (st_Source b) (st_Source a) = false.

(** What the inner loop does to the sorted prefix, read from its last
    element down: [x] moves below every element that is greater. *)
Fixpoint sink (x : SourceTables) (rpre : list SourceTables)
    : list SourceTables :=
  match rpre with
  | [] => [x]
  | y :: r =>
      if string_lt (st_Source x) (st_Source y) then y :: sink x r
      else x :: y :: r
  end.

(** ** The Go environment of the package

    What [keeper.go] uses and does not define: the schema type of the TiDB
    parser, the error type, the [Lock] object of this package with its
    constructor and its [TrySync] method, [dbutil.TableName], and the order
    in which [range] enumerates a map (unspecified by Go; any enumeration
    of the entries). *)
Class GoEnv := {
  TableInfo : Type;
  error : Type;
  Lock : Type;
  TableName : string → string → string;
  NewLock : string → string → TableInfo → list SourceTables → Lock;
  Lock_TrySync : Lock → string → string → string → list string → TableInfo →
                 list SourceTables → Lock * (list string * option error);
  range : ∀ {V : Type}, gmap string V → list (string * V);
  range_perm : ∀ {V : Type} (m : gmap string V), range m ≡ₚ map_to_list m
}.

(** ** [TableKeeper] *)

Record TableKeeper := mkTableKeeper {
  tables : gmap string (gmap string SourceTables)
}.

Definition NewTableKeeper : TableKeeper := {| tables := ∅ |}.

(** [tk.tables[task][source] = st] where [tk.tables[task]] exists. *)
Definition tables_assign (t : gmap string (gmap string SourceTables))
    (task source : string) (st : SourceTables)
    : gmap string (gmap string SourceTables) :=
  <[task := <[source := st]> (default ∅ (t !! task))]> t.

(** [_, ok := tk.tables[task][source]]: the entry, when there is one. *)
Definition tables_lookup (t : gmap string (gmap string SourceTables))
    (task source : string) : option SourceTables :=
  m ← t !! task; m !! source.

(** The zero value of the struct, which indexing a map yields for a key it
    does not hold. *)
Definition SourceTables_zero : SourceTables :=
  {| st_Task := ""%string; st_Source := ""%string; st_Tables := ∅; st_IsDeleted := false |}.

(** [st := tk.tables[task][source]]. *)
Definition tables_index (t : gmap string (gmap string SourceTables))
    (task source : string) : SourceTables :=
  default SourceTables_zero (tables_lookup t task source).

(** [if _, ok := tk.tables[task]; !ok { tk.tables[task] = make(...) }]. *)
Definition tables_ensure (t : gmap string (gmap string SourceTables))
    (task : string) : gmap string (gmap string SourceTables) :=
  match t !! task with
  | Some _ => t
  | None => <[task := ∅]> t
  end.

Section TableKeeper.
Context `{!GoEnv}.

Definition Init (tk : TableKeeper)
    (stm : gmap string (gmap string SourceTables)) : TableKeeper :=
  {| tables :=
       foldl (λ t '(task, sts),
                foldl (λ t' '(source, st), tables_assign t' task source st)
                      (tables_ensure t task) (range sts))
             ∅ (range stm) |}.

Definition Update (tk : TableKeeper) (st : SourceTables)
    : TableKeeper * bool :=
  if st_IsDeleted st then
    match tables tk !! st_Task st with
    | None => (tk, false)
    | Some m =>
        match m !! st_Source st with
        | None => (tk, false)
        | Some _ =>
            ({| tables := <[st_Task st := delete (st_Source st) m]> (tables tk) |},
             true)
        end
    end
  else
    ({| tables := tables_assign (tables_ensure (tables tk) (st_Task st))
                    (st_Task st) (st_Source st) st |}, true).

Definition AddTable (tk : TableKeeper) (task source schema table : string)
    : TableKeeper * bool :=
  match tables tk !! task with
  | None => (tk, false)
  | Some m =>
      let t1 :=
        match m !! source with
        | Some _ => tables tk
        | None => tables_assign (tables tk) task source
                    (NewSourceTables task source ∅)
        end in
      let st := tables_index t1 task source in
      let '(st', added) := SourceTables_AddTable st schema table in
      ({| tables := tables_assign t1 task source st' |}, added)
  end.

Definition RemoveTable (tk : TableKeeper) (task source schema table : string)
    : TableKeeper * bool :=
  match tables tk !! task with
  | None => (tk, false)
  | Some m =>
      match m !! source with
      | None => (tk, false)
      | Some _ =>
          let st := tables_index (tables tk) task source in
          let '(st', removed) := SourceTables_RemoveTable st schema table in
          ({| tables := tables_assign (tables tk) task source st' |}, removed)
      end
  end.

Definition SourceTablesMapToSlice (stm : gmap string SourceTables)
    : option (list SourceTables) :=
  let ret := foldl (λ ret '(_, st), ret ++ [st]) [] (range stm) in
  sort_Sort ret.

(** A [nil] slice is the empty list. *)
Definition FindTables (tk : TableKeeper) (task : string)
    : option (list SourceTables) :=
  match tables tk !! task with
  | None => Some []
  | Some stm => SourceTablesMapToSlice stm
  end.
End TableKeeper.

(** Whether [schema.table] is recorded for [(task, source)]. *)
Definition has_table (tk : TableKeeper) (task source schema table : string)
    : bool :=
  match tables_lookup (tables tk) task source with
  | Some st => st_has st schema table
  | None => false
  end.

(** [Update] with each table set of [dels], in order. *)
Definition Update_all (tk : TableKeeper) (dels : list SourceTables)
    : TableKeeper :=
  foldl (λ tk st, (Update tk st).1) tk dels.

(** Every table set is stored under its own task and source. *)
Definition tables_keyed (t : gmap string (gmap string SourceTables)) : Prop :=
  ∀ task source st,
    tables_lookup t task source = Some st →
    st_Task st = task ∧ st_Source st = source.

(** ** Memory for the [LockKeeper] *)

(** Addresses of heap objects. *)
Abbreviation loc := positive.

(** A [*Lock] value: [None] is [nil]. *)
Abbreviation ptr := (option loc).

Section LockKeeper.
Context `{!GoEnv}.

(** Modelled from the spec: the [Info] struct (its declaration is in the
    package's info file).  Spec, Change Report: task name; source
    identifier; upstream schema/table; downstream schema/table; ordered
    sequence of DDL statements; schema snapshot before the change; schema
    snapshot after the change.  These are the fields [keeper.go] reads
    and the arguments of [NewInfo] in the package's tests. *)
Record Info := mkInfo {
  info_Task : string;
  info_Source : string;
  info_UpSchema : string;
  info_UpTable : string;
  info_DownSchema : string;
  info_DownTable : string;
  info_DDLs : list string;
  info_TableInfoBefore : TableInfo;
  info_TableInfoAfter : TableInfo
}.

(** The objects a [LockKeeper] refers to: [Lock] structs and
    [map[string]*Lock] maps, each by address. *)
Record Mem := mkMem {
  lockObjs : gmap loc Lock;
  lockMaps : gmap loc (gmap string ptr)
}.

(** Computations over the memory; [None] is a run-time panic. *)
Definition M (A : Type) : Type := Mem → option (A * Mem).

#[global] Instance M_ret : MRet M := λ A a σ, Some (a, σ).
#[global] Instance M_bind : MBind M := λ A B f c σ,
  match c σ with
  | Some (a, σ') => f a σ'
  | None => None
  end.

(** [v, ok := m[k]] for the map at [r]. *)
Definition map_get (r : loc) (k : string) : M (ptr * bool) := λ σ,
  mp ← lockMaps σ !! r;
  Some (match mp !! k with
        | Some v => (v, true)
        | None => (None, false)
        end, σ).

(** [m[k] = v]. *)
Definition map_set (r : loc) (k : string) (v : ptr) : M () := λ σ,
  mp ← lockMaps σ !! r;
  Some ((), {| lockObjs := lockObjs σ;
              lockMaps := <[r := <[k := v]> mp]> (lockMaps σ) |}).

(** [delete(m, k)]. *)
Definition map_delete (r : loc) (k : string) : M () := λ σ,
  mp ← lockMaps σ !! r;
  Some ((), {| lockObjs := lockObjs σ;
              lockMaps := <[r := delete k mp]> (lockMaps σ) |}).

(** The entries of the map at [r], as [range] and [len] see them. *)
Definition map_read (r : loc) : M (gmap string ptr) := λ σ,
  mp ← lockMaps σ !! r; Some (mp, σ).

(** [make(map[string]*Lock)]: a new, empty map at an unused address. *)
Definition map_make : M loc := λ σ,
  let r := fresh (dom (lockMaps σ)) in
  Some (r, {| lockObjs := lockObjs σ;
             lockMaps := <[r := ∅]> (lockMaps σ) |}).

(** [for _, x := range l { body(x) }]. *)
Fixpoint for_each {A : Type} (l : list A) (body : A → M ()) : M () :=
  match l with
  | [] => mret ()
  | x :: l' => body x;; for_each l' body
  end.

(** [NewLock(ID, task, ti, sts)] returns the address of a new object. *)
Definition NewLock_ptr (ID task : string) (ti : TableInfo)
    (sts : list SourceTables) : M ptr := λ σ,
  let p := fresh (dom (lockObjs σ)) in
  Some (Some p, {| lockObjs := <[p := NewLock ID task ti sts]> (lockObjs σ);
                  lockMaps := lockMaps σ |}).

(** [l.TrySync(...)] through the pointer [l]: the method updates the
    object [l] points to; through [nil] it panics. *)
Definition Lock_TrySync_ptr (l : ptr) (source upSchema upTable : string)
    (DDLs : list string) (ti : TableInfo) (sts : list SourceTables)
    : M (list string * option error) := λ σ,
  p ← l;
  o ← lockObjs σ !! p;
  let '(o', res) := Lock_TrySync o source upSchema upTable DDLs ti sts in
  Some (res, {| lockObjs := <[p := o']> (lockObjs σ);
               lockMaps := lockMaps σ |}).

(** ** [LockKeeper] *)

Record LockKeeper := mkLockKeeper {
  locks : loc
}.

Definition NewLockKeeper : M LockKeeper :=
  r ← map_make; mret {| locks := r |}.

Definition genDDLLockID (info : Info) : string :=
  Sprintf_s_dash_s (info_Task info)
    (TableName (info_DownSchema info) (info_DownTable info)).

Definition TrySync (lk : LockKeeper) (info : Info) (sts : list SourceTables)
    : M (string * list string * option error) :=
  let lockID := genDDLLockID info in
  '(l, ok) ← map_get (locks lk) lockID;
  l ← (if ok : bool then mret l
       else
         p ← NewLock_ptr lockID (info_Task info)
               (info_TableInfoBefore info) sts;
         map_set (locks lk) lockID p;;
         '(l', _) ← map_get (locks lk) lockID;
         mret l');
  '(newDDLs, err) ← Lock_TrySync_ptr l (info_Source info)
                      (info_UpSchema info) (info_UpTable info)
                      (info_DDLs info) (info_TableInfoAfter info) sts;
  mret (lockID, newDDLs, err).

Definition RemoveLock (lk : LockKeeper) (lockID : string) : M bool :=
  '(_, ok) ← map_get (locks lk) lockID;
  map_delete (locks lk) lockID;;
  mret ok.

Definition FindLock (lk : LockKeeper) (lockID : string) : M ptr :=
  '(l, _) ← map_get (locks lk) lockID;
  mret l.

Definition FindLockByInfo (lk : LockKeeper) (info : Info) : M ptr :=
  FindLock lk (genDDLLockID info).

(** The result is the address of the new map. *)
Definition Locks (lk : LockKeeper) : M loc :=
  src ← map_read (locks lk);
  r ← map_make;
  for_each (range src) (λ '(k, v), map_set r k v);;
  mret r.

(** [lk.locks = make(...)]: the keeper's field now holds the new map. *)
Definition Clear (lk : LockKeeper) : M LockKeeper :=
  r ← map_make; mret {| locks := r |}.

(** The keeper's map, read in a memory. *)
Definition locks_of (lk : LockKeeper) (σ : Mem) : option (gmap string ptr) :=
  lockMaps σ !! locks lk.

(** The state a keeper is in between calls: its map is allocated (it
    comes from [NewLockKeeper] or [Clear]) and holds only addresses of
    allocated [Lock] objects. *)
Definition keeper_ok (lk : LockKeeper) (σ : Mem) : Prop :=
  ∃ mp, locks_of lk σ = Some mp ∧
        ∀ id v, mp !! id = Some v → ∃ p o, v = Some p ∧ lockObjs σ !! p = Some o.

(** No two identifiers of the keeper's map hold the same [Lock] object. *)
Definition locks_distinct (lk : LockKeeper) (σ : Mem) : Prop :=
  ∀ mp id1 id2 p,
    locks_of lk σ = Some mp →
    mp !! id1 = Some (Some p) → mp !! id2 = Some (Some p) → id1 = id2.

(** The call [l.TrySync(info.Source, info.UpSchema, info.UpTable,
    info.DDLs, info.TableInfoAfter, sts)] on the object [o]. *)
Definition call_TrySync (o : Lock) (info : Info) (sts : list SourceTables)
    : Lock * (list string * option error) :=
  Lock_TrySync o (info_Source info) (info_UpSchema info) (info_UpTable info)
    (info_DDLs info) (info_TableInfoAfter info) sts.

(** The object [NewLock] builds for [info] and [sts]. *)
Definition seeded_Lock (info : Info) (sts : list SourceTables) : Lock :=
  NewLock (genDDLLockID info) (info_Task info) (info_TableInfoBefore info) sts.
End LockKeeper.

(** * Properties *)

(** ** Nested table maps *)

Section tables_facts.
Implicit Types t : gmap string (gmap string SourceTables).

Lemma tables_lookup_assign_eq t task source st :
  tables_lookup (tables_assign t task source st) task source = Some st.
Proof.
  unfold tables_lookup, tables_assign.
  rewrite lookup_insert_eq. simpl. apply lookup_insert_eq.
Qed.

Lemma tables_lookup_assign_ne t task source st task' source' :
  (task', source') ≠ (task, source) →
  is_Some (t !! task) →
  tables_lookup (tables_assign t task source st) task' source'
  = tables_lookup t task' source'.
Proof.
  intros Hne [m Hm]. unfold tables_lookup, tables_assign.
  destruct (decide (task' = task)) as [->|Ht].
  - rewrite lookup_insert_eq, Hm. simpl.
    apply lookup_insert_ne. congruence.
  - by rewrite lookup_insert_ne.
Qed.

Lemma tables_ensure_lookup t task :
  tables_ensure t task !! task = Some (default ∅ (t !! task)).
Proof.
  unfold tables_ensure. destruct (t !! task) eqn:E; simpl; [done|].
  apply lookup_insert_eq.
Qed.

Lemma tables_lookup_ensure t task task' source' :
  tables_lookup (tables_ensure t task) task' source'
  = tables_lookup t task' source'.
Proof.
  unfold tables_lookup, tables_ensure.
  destruct (t !! task) eqn:E; [done|].
  destruct (decide (task' = task)) as [->|Ht].
  - by rewrite lookup_insert_eq, E.
  - by rewrite lookup_insert_ne.
Qed.

Lemma tables_assign_present t task source st m :
  t !! task = Some m →
  tables_assign t task source st = <[task := <[source := st]> m]> t.
Proof. intros Hm. unfold tables_assign. by rewrite Hm. Qed.
End tables_facts.

(** ** Table sets *)

Lemma SourceTables_AddTable_added st schema table :
  (SourceTables_AddTable st schema table).2 = negb (st_has st schema table).
Proof.
  unfold SourceTables_AddTable, st_has.
  destruct (st_Tables st !! schema) as [ts|]; simpl.
  - by destruct (bool_decide (table ∈ ts)).
  - rewrite bool_decide_eq_false_2; [done|set_solver].
Qed.

Lemma SourceTables_AddTable_has st schema table :
  st_has (SourceTables_AddTable st schema table).1 schema table = true.
Proof.
  unfold SourceTables_AddTable, st_has.
  destruct (bool_decide (table ∈ default ∅ (st_Tables st !! schema))) eqn:E; simpl.
  - apply bool_decide_eq_true in E.
    destruct (st_Tables st !! schema) as [ts|]; simpl in *.
    + by apply bool_decide_eq_true.
    + set_solver.
  - rewrite lookup_insert_eq. apply bool_decide_eq_true. set_solver.
Qed.

Lemma SourceTables_RemoveTable_removed st schema table :
  (SourceTables_RemoveTable st schema table).2 = st_has st schema table.
Proof.
  unfold SourceTables_RemoveTable, st_has.
  destruct (st_Tables st !! schema) as [ts|]; simpl; [|done].
  by destruct (bool_decide (table ∈ ts)).
Qed.

Lemma SourceTables_RemoveTable_has st schema table :
  st_has (SourceTables_RemoveTable st schema table).1 schema table = false.
Proof.
  unfold SourceTables_RemoveTable, st_has.
  destruct (st_Tables st !! schema) as [ts|] eqn:Hs; simpl.
  - destruct (bool_decide (table ∈ ts)) eqn:E; simpl.
    + rewrite lookup_insert_eq. apply bool_decide_eq_false.
      apply not_elem_of_difference. right. by apply elem_of_singleton.
    + by rewrite Hs.
  - by rewrite Hs.
Qed.

Lemma st_has_new task source schema table :
  st_has (NewSourceTables task source ∅) schema table = false.
Proof. done. Qed.

Section TableKeeper_facts.
Context `{!GoEnv}.

(** C3.  [Update] with the tombstone set removes exactly the
    [(st.Task, st.Source)] entry, leaves every other entry as it was and
    returns true exactly when that entry existed; with the tombstone
    unset it returns true and the entry is [st] afterwards. *)
Theorem Update_entry (tk : TableKeeper) (st : SourceTables) :
  let tk' := (Update tk st).1 in
  let changed := (Update tk st).2 in
  if st_IsDeleted st then
    tables_lookup (tables tk') (st_Task st) (st_Source st) = None ∧
    (∀ task source, (task, source) ≠ (st_Task st, st_Source st) →
       tables_lookup (tables tk') task source
       = tables_lookup (tables tk) task source) ∧
    (changed = true ↔
       is_Some (tables_lookup (tables tk) (st_Task st) (st_Source st)))
  else
    changed = true ∧
    tables_lookup (tables tk') (st_Task st) (st_Source st) = Some st.
Proof.
  unfold Update. destruct (st_IsDeleted st); simpl.
  - unfold tables_lookup.
    destruct (tables tk !! st_Task st) as [m|] eqn:Hm; simpl.
    + destruct (m !! st_Source st) as [old|] eqn:Hs; simpl.
      * split_and!.
        -- rewrite lookup_insert_eq. simpl. apply lookup_delete_eq.
        -- intros task source Hne.
           destruct (decide (task = st_Task st)) as [->|Ht].
           ++ rewrite lookup_insert_eq, Hm. simpl.
              apply lookup_delete_ne. congruence.
           ++ by rewrite lookup_insert_ne.
        -- rewrite ?Hm; simpl; rewrite ?Hs. split; eauto.
      * rewrite ?Hm; simpl; rewrite ?Hs. split_and!; [done|done|].
        split; [done|]. by intros [? ?].
    + rewrite ?Hm; simpl. split_and!; [done|done|].
      split; [done|]. by intros [? ?].
  - split; [done|]. apply tables_lookup_assign_eq.
Qed.

(** C7.  For a task the keeper does not hold, [AddTable] and
    [RemoveTable] return false and leave the keeper as it was; no entry
    for the task appears. *)
Theorem AddTable_RemoveTable_unknown_task
    (tk : TableKeeper) (task source schema table : string) :
  tables tk !! task = None →
  AddTable tk task source schema table = (tk, false) ∧
  RemoveTable tk task source schema table = (tk, false) ∧
  tables (AddTable tk task source schema table).1 !! task = None ∧
  tables (RemoveTable tk task source schema table).1 !! task = None.
Proof.
  intros Hno. unfold AddTable, RemoveTable. rewrite Hno. done.
Qed.
(** *** [AddTable] and [RemoveTable] on a task the keeper holds *)

Lemma AddTable_present tk task source schema table m :
  tables tk !! task = Some m →
  let st := default (NewSourceTables task source ∅) (m !! source) in
  AddTable tk task source schema table
  = ({| tables := <[task := <[source :=
                     (SourceTables_AddTable st schema table).1]> m]> (tables tk) |},
     (SourceTables_AddTable st schema table).2).
Proof.
  intros Hm. unfold AddTable. rewrite Hm.
  destruct (m !! source) as [st0|] eqn:Hs; simpl.
  - unfold tables_index, tables_lookup. rewrite Hm. simpl. rewrite Hs. simpl.
    destruct (SourceTables_AddTable st0 schema table) as [st' added]. simpl.
    by rewrite (tables_assign_present _ _ _ _ m).
  - unfold tables_index. rewrite tables_lookup_assign_eq. simpl.
    destruct (SourceTables_AddTable _ schema table) as [st' added]. simpl.
    f_equal. f_equal. unfold tables_assign.
    rewrite lookup_insert_eq, Hm. simpl.
    by rewrite !insert_insert_eq.
Qed.

Lemma RemoveTable_present tk task source schema table m st :
  tables tk !! task = Some m →
  m !! source = Some st →
  RemoveTable tk task source schema table
  = ({| tables := <[task := <[source :=
                     (SourceTables_RemoveTable st schema table).1]> m]> (tables tk) |},
     (SourceTables_RemoveTable st schema table).2).
Proof.
  intros Hm Hs. unfold RemoveTable. rewrite Hm, Hs.
  unfold tables_index, tables_lookup. rewrite Hm. simpl. rewrite Hs. simpl.
  destruct (SourceTables_RemoveTable st schema table) as [st' removed]. simpl.
  by rewrite (tables_assign_present _ _ _ _ m).
Qed.

(** The keeper after [AddTable] on a task it holds: the source has an
    entry, which records the table. *)
Lemma AddTable_present_entry tk task source schema table m :
  tables tk !! task = Some m →
  (AddTable tk task source schema table).2
  = negb (st_has (default (NewSourceTables task source ∅) (m !! source))
                 schema table) ∧
  ∃ m1 st1,
    tables (AddTable tk task source schema table).1 !! task = Some m1 ∧
    m1 !! source = Some st1 ∧ st_has st1 schema table = true.
Proof.
  intros Hm.
  rewrite (AddTable_present tk _ _ _ _ m Hm). cbn [fst snd tables].
  split; [apply SourceTables_AddTable_added|].
  eexists _, _. split; [apply lookup_insert_eq|].
  split; [apply lookup_insert_eq|]. apply SourceTables_AddTable_has.
Qed.

(** The keeper after [RemoveTable] on an entry it holds. *)
Lemma RemoveTable_present_entry tk task source schema table m st :
  tables tk !! task = Some m →
  m !! source = Some st →
  (RemoveTable tk task source schema table).2 = st_has st schema table ∧
  ∃ m1 st1,
    tables (RemoveTable tk task source schema table).1 !! task = Some m1 ∧
    m1 !! source = Some st1 ∧ st_has st1 schema table = false.
Proof.
  intros Hm Hs.
  rewrite (RemoveTable_present tk _ _ _ _ m st Hm Hs). cbn [fst snd tables].
  split; [apply SourceTables_RemoveTable_removed|].
  eexists _, _. split; [apply lookup_insert_eq|].
  split; [apply lookup_insert_eq|]. apply SourceTables_RemoveTable_has.
Qed.

(** C6, as the code has it.  On a keeper that holds the task, the first
    [AddTable] returns true exactly when the table was not yet recorded
    for that task and source, the second one with the same arguments
    returns false; the two [RemoveTable] calls that follow return true
    then false. *)
Theorem AddTable_RemoveTable_twice
    (tk : TableKeeper) (task source schema table : string) :
  is_Some (tables tk !! task) →
  let tk1 := (AddTable tk task source schema table).1 in
  let tk2 := (AddTable tk1 task source schema table).1 in
  let tk3 := (RemoveTable tk2 task source schema table).1 in
  (AddTable tk task source schema table).2
    = negb (has_table tk task source schema table) ∧
  (AddTable tk1 task source schema table).2 = false ∧
  (RemoveTable tk2 task source schema table).2 = true ∧
  (RemoveTable tk3 task source schema table).2 = false.
Proof.
  intros [m Hm] tk1 tk2 tk3.
  destruct (AddTable_present_entry tk task source schema table m Hm)
    as (Ha1 & m1 & st1 & Hm1 & Hs1 & Hh1).
  fold tk1 in Hm1.
  destruct (AddTable_present_entry tk1 task source schema table m1 Hm1)
    as (Ha2 & m2 & st2 & Hm2 & Hs2 & Hh2).
  fold tk2 in Hm2. rewrite Hs1 in Ha2. cbn [from_option id] in Ha2.
  destruct (RemoveTable_present_entry tk2 task source schema table m2 st2
              Hm2 Hs2) as (Hr1 & m3 & st3 & Hm3 & Hs3 & Hh3).
  fold tk3 in Hm3.
  destruct (RemoveTable_present_entry tk3 task source schema table m3 st3
              Hm3 Hs3) as (Hr2 & _).
  split_and!.
  - rewrite Ha1. f_equal. unfold has_table, tables_lookup.
    rewrite Hm. cbn [mbind option_bind]. by destruct (m !! source).
  - by rewrite Ha2, Hh1.
  - by rewrite Hr1, Hh2.
  - by rewrite Hr2, Hh3.
Qed.

(** *** Tombstones for every source of a task *)

Lemma Update_tombstone_task tk st m :
  st_IsDeleted st = true →
  tables tk !! st_Task st = Some m →
  tables (Update tk st).1 !! st_Task st = Some (delete (st_Source st) m).
Proof.
  intros Hd Hm. unfold Update. rewrite Hd, Hm.
  destruct (m !! st_Source st) as [old|] eqn:Hs; simpl.
  - apply lookup_insert_eq.
  - rewrite Hm. f_equal. symmetry. by apply delete_id.
Qed.

Lemma Update_all_tombstones_task task dels : ∀ tk m,
  Forall (λ st, st_IsDeleted st = true ∧ st_Task st = task) dels →
  tables tk !! task = Some m →
  tables (Update_all tk dels) !! task
  = Some (foldl (λ m st, delete (st_Source st) m) m dels).
Proof.
  induction dels as [|st dels IH]; intros tk m Hall Hm; simpl; [done|].
  apply Forall_cons in Hall as [[Hd Ht] Hall]. subst task.
  apply IH; [done|]. by apply Update_tombstone_task.
Qed.

Lemma lookup_foldl_delete (dels : list SourceTables) : ∀ (m : gmap string SourceTables) k,
  foldl (λ m st, delete (st_Source st) m) m dels !! k
  = if bool_decide (k ∈ st_Source <$> dels) then None else m !! k.
Proof.
  induction dels as [|st dels IH]; intros m k; simpl; [done|].
  rewrite IH. destruct (decide (k = st_Source st)) as [->|Hne].
  - rewrite lookup_delete_eq.
    rewrite (bool_decide_eq_true_2 (_ ∈ _ :: _)) by (apply elem_of_cons; auto).
    by case_bool_decide.
  - rewrite lookup_delete_ne by done.
    apply (f_equal (λ b : bool, if b then None else m !! k)).
    apply bool_decide_ext. rewrite elem_of_cons.
    split; [by right|]. by intros [?|?].
Qed.

(** C10.  After a tombstoned [Update] for every source of a task the
    task is still a key of the keeper, mapped to an empty source map; an
    [AddTable] for that task then stores, for the source, the table set
    that [AddTable] of the table set yields on a new, empty one, and
    returns what that call returns, which is true; on a keeper that
    never held the task [AddTable] changes nothing and returns false. *)
Theorem tombstones_keep_task
    (tk : TableKeeper) (task : string) (m : gmap string SourceTables)
    (dels : list SourceTables) (source schema table : string) :
  tables tk !! task = Some m →
  Forall (λ st, st_IsDeleted st = true ∧ st_Task st = task) dels →
  (∀ src, is_Some (m !! src) → src ∈ st_Source <$> dels) →
  let tk' := Update_all tk dels in
  let fresh_st := NewSourceTables task source ∅ in
  tables tk' !! task = Some ∅ ∧
  AddTable tk' task source schema table
  = ({| tables := <[task := {[source :=
                     (SourceTables_AddTable fresh_st schema table).1]}]>
                    (tables tk') |},
     (SourceTables_AddTable fresh_st schema table).2) ∧
  (SourceTables_AddTable fresh_st schema table).2 = true ∧
  (∀ tk0, tables tk0 !! task = None →
     AddTable tk0 task source schema table = (tk0, false)).
Proof.
  intros Hm Hall Hcover. simpl.
  assert (Hempty : tables (Update_all tk dels) !! task = Some ∅).
  { rewrite (Update_all_tombstones_task task dels tk m Hall Hm).
    f_equal. apply map_eq. intros k.
    rewrite lookup_foldl_delete, lookup_empty.
    case_bool_decide as Hk; [done|].
    destruct (m !! k) eqn:Hmk; [|done].
    exfalso. apply Hk, Hcover. by rewrite Hmk. }
  split_and!.
  - done.
  - rewrite (AddTable_present _ _ _ _ _ ∅ Hempty). simpl.
    by rewrite lookup_empty, insert_empty.
  - by rewrite SourceTables_AddTable_added, st_has_new.
  - intros tk0 Hno. unfold AddTable. by rewrite Hno.
Qed.
End TableKeeper_facts.

(** ** [sort.Sort] on a [SourceTablesSlice] *)

(** The order of [String.compare] is the lexicographic order of the
    standard library's ordered type of strings, which is transitive. *)
Lemma String_compare_OT a : ∀ b,
  String.compare a b = OrdersEx.String_as_OT.compare a b.
Proof.
  induction a as [|c a IH]; intros [|d b]; simpl; done.
Qed.

Lemma String_ltb_false_trans a b c :
  String.ltb b a = false → String.ltb c b = false → String.ltb c a = false.
Proof.
  unfold String.ltb.
  rewrite (String_compare_OT b a), (String_compare_OT c b), (String_compare_OT c a).
  intros Hab Hbc.
  destruct (OrdersEx.String_as_OT.compare_spec c a) as [?|Hca|?]; try done.
  exfalso.
  destruct OrdersEx.String_as_OT.lt_strorder as [Hirr Htr].
  destruct (OrdersEx.String_as_OT.compare_spec b a) as [Eba|Hba|Hba];
    [|done|];
  destruct (OrdersEx.String_as_OT.compare_spec c b) as [Ecb|Hcb|Hcb];
    try done; unfold OrdersEx.String_as_OT.eq in *; simplify_eq.
  - by apply (Hirr a).
  - apply (Hirr a). by apply (Htr a c a).
  - apply (Hirr a). by apply (Htr a b a).
  - apply (Hirr a). apply (Htr a b a); [done|]. by apply (Htr b c a).
Qed.

#[global] Instance Source_le_trans : Transitive Source_le.
Proof.
  intros a b c Hab Hbc. unfold Source_le, string_lt in *.
  by eapply String_ltb_false_trans.
Qed.

Section sort_facts.
Implicit Types l pre post : list SourceTables.

Lemma length_sink x rpre : length (sink x rpre) = S (length rpre).
Proof.
  induction rpre as [|y r IH]; simpl; [done|].
  destruct (string_lt _ _); simpl; by rewrite ?IH.
Qed.

Lemma sink_Permutation x rpre : sink x rpre ≡ₚ x :: rpre.
Proof.
  induction rpre as [|y r IH]; simpl; [done|].
  destruct (string_lt _ _); [|done].
  rewrite IH. apply perm_swap.
Qed.

Lemma sink_HdRel x y r :
  Source_le x y →
  HdRel (flip Source_le) y r →
  HdRel (flip Source_le) y (sink x r).
Proof.
  intros Hxy Hr. destruct r as [|z r]; simpl.
  - by constructor.
  - destruct (string_lt _ _); constructor; [|done].
    by apply HdRel_inv in Hr.
Qed.

Lemma string_lt_Source_le a b :
  string_lt (st_Source a) (st_Source b) = true → Source_le a b.
Proof.
  unfold Source_le, string_lt, String.ltb. intros Hab.
  rewrite String.compare_antisym.
  by destruct (String.compare (st_Source a) (st_Source b)).
Qed.

Lemma sink_Sorted x rpre :
  Sorted (flip Source_le) rpre → Sorted (flip Source_le) (sink x rpre).
Proof.
  induction rpre as [|y r IH]; intros Hs; simpl.
  - by repeat constructor.
  - apply Sorted_inv in Hs as [Hs Hhd].
    destruct (string_lt (st_Source x) (st_Source y)) eqn:Hlt.
    + constructor; [by apply IH|].
      apply sink_HdRel; [|done]. by apply string_lt_Source_le.
    + constructor; [by constructor|]. by constructor.
Qed.

Lemma swap_adjacent l1 x y l2 :
  <[length l1 := x]> (<[S (length l1) := y]> (l1 ++ y :: x :: l2))
  = l1 ++ x :: y :: l2.
Proof. induction l1 as [|z l1 IH]; simpl; [done|]. by rewrite IH. Qed.

Lemma insertionSort_inner_sink rpre : ∀ x post,
  insertionSort_inner (reverse rpre ++ x :: post) (length rpre)
  = Some (reverse (sink x rpre) ++ post).
Proof.
  induction rpre as [|y r IH]; intros x post; simpl; [done|].
  rewrite reverse_cons, <-app_assoc. simpl.
  unfold SourceTablesSlice_Less, SourceTablesSlice_Swap.
  assert (Hj : (reverse r ++ y :: x :: post) !! S (length r) = Some x).
  { rewrite (lookup_app_r (reverse r)) by (rewrite length_reverse; lia).
    rewrite length_reverse. by replace (S (length r) - length r) with 1 by lia. }
  assert (Hj' : (reverse r ++ y :: x :: post) !! length r = Some y).
  { apply list_lookup_middle. by rewrite length_reverse. }
  rewrite Hj, Hj'. simpl.
  destruct (string_lt (st_Source x) (st_Source y)).
  - simpl. rewrite <-(length_reverse r), swap_adjacent, length_reverse.
    by rewrite IH, reverse_cons, <-app_assoc.
  - simpl. by rewrite !reverse_cons, <-!app_assoc.
Qed.

Lemma insertionSort_outer_sink post : ∀ rpre,
  insertionSort_outer (reverse rpre ++ post) (length rpre) (length post)
  = Some (reverse (foldl (λ acc x, sink x acc) rpre post)).
Proof.
  induction post as [|x post IH]; intros rpre; simpl.
  - by rewrite app_nil_r.
  - rewrite insertionSort_inner_sink. simpl.
    rewrite <-(length_sink x rpre). apply IH.
Qed.

(** [sort.Sort] returns, and what it returns is the slice built by
    sinking the elements one after the other. *)
Lemma sort_Sort_sink l :
  sort_Sort l
  = Some (match l with
          | [] => []
          | x :: post => reverse (foldl (λ acc x, sink x acc) [x] post)
          end).
Proof.
  unfold sort_Sort, insertionSort. destruct l as [|x post]; simpl; [done|].
  rewrite Nat.sub_0_r. apply (insertionSort_outer_sink post [x]).
Qed.

Lemma foldl_sink_Permutation post : ∀ rpre,
  foldl (λ acc x, sink x acc) rpre post ≡ₚ rpre ++ post.
Proof.
  induction post as [|x post IH]; intros rpre; simpl.
  - by rewrite app_nil_r.
  - rewrite IH, sink_Permutation. simpl. apply Permutation_middle.
Qed.

Lemma foldl_sink_Sorted post : ∀ rpre,
  Sorted (flip Source_le) rpre →
  Sorted (flip Source_le) (foldl (λ acc x, sink x acc) rpre post).
Proof.
  induction post as [|x post IH]; intros rpre Hs; simpl; [done|].
  by apply IH, sink_Sorted.
Qed.

Lemma sort_Sort_correct l :
  ∃ l', sort_Sort l = Some l' ∧ l' ≡ₚ l ∧ StronglySorted Source_le l'.
Proof.
  rewrite sort_Sort_sink. eexists; split; [done|].
  destruct l as [|x post]; [split; [done|constructor]|].
  split.
  - by rewrite reverse_Permutation, foldl_sink_Permutation.
  - apply Sorted_StronglySorted; [apply _|].
    apply Sorted_reverse. apply foldl_sink_Sorted. by repeat constructor.
Qed.
End sort_facts.

(** ** [range] over a map *)

Section range_facts.
Context `{!GoEnv}.

Lemma NoDup_fst_range {V} (m : gmap string V) : NoDup (range m).*1.
Proof. rewrite (range_perm m). apply NoDup_fst_map_to_list. Qed.

Lemma foldl_insert_list {V} (l : list (string * V)) : ∀ m0 : gmap string V,
  NoDup l.*1 →
  foldl (λ m '(k, v), <[k := v]> m) m0 l = list_to_map l ∪ m0.
Proof.
  induction l as [|[k v] l IH]; intros m0 Hnd; simpl.
  - by rewrite (left_id_L ∅ (∪)).
  - apply NoDup_cons in Hnd as [Hk Hnd].
    rewrite IH by done.
    rewrite <-insert_union_r by by apply not_elem_of_list_to_map_1.
    by rewrite insert_union_l.
Qed.

(** Storing every entry that [range] enumerates rebuilds the map. *)
Lemma foldl_insert_range {V} (m m0 : gmap string V) :
  foldl (λ acc '(k, v), <[k := v]> acc) m0 (range m) = m ∪ m0.
Proof.
  rewrite foldl_insert_list by apply NoDup_fst_range.
  f_equal. rewrite <-(list_to_map_to_list m) at 2.
  apply list_to_map_proper; [apply NoDup_fst_range|apply range_perm].
Qed.

Lemma elem_of_range {V} (m : gmap string V) k v :
  (k, v) ∈ range m ↔ m !! k = Some v.
Proof. rewrite (range_perm m). apply elem_of_map_to_list. Qed.
End range_facts.

(** ** [Init] and [FindTables] *)

Section FindTables_facts.
Context `{!GoEnv}.

Lemma Init_inner task (l : list (string * SourceTables)) : ∀ t m0,
  t !! task = Some m0 →
  foldl (λ t' '(source, st), tables_assign t' task source st) t l
  = <[task := foldl (λ m '(s, st), <[s := st]> m) m0 l]> t.
Proof.
  induction l as [|[s st] l IH]; intros t m0 Hm; simpl.
  - by rewrite insert_id.
  - rewrite (tables_assign_present _ _ _ _ m0 Hm).
    rewrite (IH _ (<[s := st]> m0)) by apply lookup_insert_eq.
    by rewrite insert_insert_eq.
Qed.

Lemma Init_step t task sts :
  foldl (λ t' '(source, st), tables_assign t' task source st)
        (tables_ensure t task) (range sts)
  = <[task := sts ∪ default ∅ (t !! task)]> t.
Proof.
  rewrite (Init_inner task _ _ _ (tables_ensure_lookup t task)).
  rewrite foldl_insert_range. unfold tables_ensure.
  destruct (t !! task) eqn:E; [done|]. by rewrite insert_insert_eq.
Qed.

Lemma Init_outer (l : list (string * gmap string SourceTables)) : ∀ t,
  NoDup l.*1 →
  (∀ k, k ∈ l.*1 → t !! k = None) →
  foldl (λ t '(task, sts),
           foldl (λ t' '(source, st), tables_assign t' task source st)
                 (tables_ensure t task) (range sts)) t l
  = foldl (λ t '(k, v), <[k := v]> t) t l.
Proof.
  induction l as [|[task sts] l IH]; intros t Hnd Hfresh; simpl; [done|].
  apply NoDup_cons in Hnd as [Hk Hnd].
  rewrite Init_step, Hfresh by (simpl; apply elem_of_cons; auto). simpl.
  rewrite (right_id_L ∅ (∪)). apply IH; [done|].
  intros k Hin. rewrite lookup_insert_ne by (by intros ->).
  apply Hfresh. simpl. apply elem_of_cons. auto.
Qed.

(** [Init] replaces the keeper's contents by the snapshot. *)
Lemma Init_tables tk stm : tables (Init tk stm) = stm.
Proof.
  unfold Init. simpl.
  rewrite Init_outer by (apply NoDup_fst_range || intros; apply lookup_empty).
  rewrite foldl_insert_range. apply (right_id_L ∅ (∪)).
Qed.

Lemma foldl_append_snd (l : list (string * SourceTables)) : ∀ acc,
  foldl (λ ret '(_, st), ret ++ [st]) acc l = acc ++ l.*2.
Proof.
  induction l as [|[k st] l IH]; intros acc; simpl.
  - by rewrite app_nil_r.
  - by rewrite IH, <-app_assoc.
Qed.

Lemma SourceTablesMapToSlice_correct (stm : gmap string SourceTables) :
  ∃ res, SourceTablesMapToSlice stm = Some res ∧
         res ≡ₚ (map_to_list stm).*2 ∧ StronglySorted Source_le res.
Proof.
  unfold SourceTablesMapToSlice. rewrite foldl_append_snd. simpl.
  destruct (sort_Sort_correct (range stm).*2) as (res & Hres & Hperm & Hsort).
  exists res. split_and!; [done| |done].
  by rewrite Hperm, (range_perm stm).
Qed.

(** When every entry is stored under its own [Source], the sources of
    the values are the keys, each once. *)
Lemma sources_of_keyed (m : gmap string SourceTables) :
  (∀ k st, m !! k = Some st → st_Source st = k) →
  st_Source <$> (map_to_list m).*2 = (map_to_list m).*1.
Proof.
  intros Hkey. rewrite <-list_fmap_compose.
  apply list_fmap_ext. intros i [k st] Hi. simpl.
  apply Hkey. apply elem_of_map_to_list. by eapply list_elem_of_lookup_2.
Qed.

(** C4.  [FindTables] returns; its result is in increasing order of
    [Source] (no element is [Less] than one before it) whatever order
    [range] enumerates the map in, and holds the
    task's table sets, each once; for a task the keeper does not hold it
    is empty; after [Init] with a snapshot it holds, for a task of the
    snapshot, the table sets of that task in the snapshot, each once, and
    when the snapshot stores each of them under its own source these are
    the task's sources, each once. *)
Theorem FindTables_sorted_exact
    (tk tk0 : TableKeeper) (task : string)
    (stm : gmap string (gmap string SourceTables)) :
  (∃ res, FindTables tk task = Some res ∧
          StronglySorted Source_le res ∧
          res ≡ₚ (map_to_list (default ∅ (tables tk !! task))).*2) ∧
  (tables tk !! task = None → FindTables tk task = Some []) ∧
  (∀ m, stm !! task = Some m →
     ∃ res, FindTables (Init tk0 stm) task = Some res ∧
            StronglySorted Source_le res ∧
            res ≡ₚ (map_to_list m).*2 ∧
            ((∀ k st, m !! k = Some st → st_Source st = k) →
             NoDup (st_Source <$> res) ∧
             ∀ s, s ∈ st_Source <$> res ↔ is_Some (m !! s))).
Proof.
  split_and!.
  - unfold FindTables. destruct (tables tk !! task) as [m|]; simpl.
    + destruct (SourceTablesMapToSlice_correct m) as (res & ? & ? & ?).
      by exists res.
    + exists []. split_and!; [done|constructor|].
      by rewrite map_to_list_empty.
  - intros Hno. unfold FindTables. by rewrite Hno.
  - intros m Hm. unfold FindTables. rewrite Init_tables, Hm.
    destruct (SourceTablesMapToSlice_correct m) as (res & Hres & Hperm & Hs).
    exists res. split_and!; [done|done|done|].
    intros Hkey.
    assert (Hsrc : st_Source <$> res ≡ₚ (map_to_list m).*1)
      by (by rewrite Hperm, (sources_of_keyed m Hkey)).
    split.
    + rewrite Hsrc. apply NoDup_fst_map_to_list.
    + intros s. rewrite Hsrc, list_elem_of_fmap. split.
      * intros ([k st] & -> & Hin). apply elem_of_map_to_list in Hin. eauto.
      * intros [st Hst]. exists (s, st). split; [done|].
        by apply elem_of_map_to_list.
Qed.
End FindTables_facts.

(** ** [LockKeeper] *)

(** Unfold one layer of the memory monad. *)
Ltac run_M :=
  unfold mbind, M_bind, mret, M_ret; simpl.

Section LockKeeper_facts.
Context `{!GoEnv}.

Lemma map_get_run r k σ mp :
  lockMaps σ !! r = Some mp →
  map_get r k σ
  = Some (match mp !! k with Some v => (v, true) | None => (None, false) end, σ).
Proof. intros Hr. unfold map_get. by rewrite Hr. Qed.

(** [TrySync] when the keeper holds a lock for the identifier. *)
Lemma TrySync_existing lk info sts σ mp p o :
  locks_of lk σ = Some mp →
  mp !! genDDLLockID info = Some (Some p) →
  lockObjs σ !! p = Some o →
  TrySync lk info sts σ
  = Some ((genDDLLockID info, (call_TrySync o info sts).2.1,
           (call_TrySync o info sts).2.2),
          {| lockObjs := <[p := (call_TrySync o info sts).1]> (lockObjs σ);
             lockMaps := lockMaps σ |}).
Proof.
  intros Hmp Hid Ho. unfold TrySync. run_M.
  rewrite (map_get_run _ _ _ mp Hmp), Hid. simpl.
  unfold Lock_TrySync_ptr. simpl. rewrite Ho. simpl.
  unfold call_TrySync.
  by destruct (Lock_TrySync o _ _ _ _ _ sts) as [o' [ddls err]].
Qed.

(** [TrySync] when the keeper holds no lock for the identifier. *)
Lemma TrySync_new lk info sts σ mp :
  locks_of lk σ = Some mp →
  mp !! genDDLLockID info = None →
  let p := fresh (dom (lockObjs σ)) in
  let o := seeded_Lock info sts in
  TrySync lk info sts σ
  = Some ((genDDLLockID info, (call_TrySync o info sts).2.1,
           (call_TrySync o info sts).2.2),
          {| lockObjs := <[p := (call_TrySync o info sts).1]> (lockObjs σ);
             lockMaps := <[locks lk := <[genDDLLockID info := Some p]> mp]>
                           (lockMaps σ) |}).
Proof.
  intros Hmp Hid. simpl. unfold TrySync. run_M.
  rewrite (map_get_run _ _ _ mp Hmp), Hid. simpl.
  unfold NewLock_ptr, map_set. simpl.
  unfold locks_of in Hmp. rewrite Hmp. simpl.
  erewrite map_get_run by (simpl; apply lookup_insert_eq).
  rewrite lookup_insert_eq. simpl.
  unfold Lock_TrySync_ptr. simpl. rewrite lookup_insert_eq. simpl.
  unfold call_TrySync, seeded_Lock.
  destruct (Lock_TrySync _ _ _ _ _ _ sts) as [o' [ddls err]]. simpl.
  by rewrite insert_insert_eq.
Qed.

Lemma fresh_lockObjs σ : lockObjs σ !! fresh (dom (lockObjs σ)) = None.
Proof. apply not_elem_of_dom, is_fresh. Qed.

Lemma fresh_lockMaps σ : lockMaps σ !! fresh (dom (lockMaps σ)) = None.
Proof. apply not_elem_of_dom, is_fresh. Qed.
(** [TrySync] returns from every state the keeper can be in: it calls
    [Lock.TrySync] on one object [o] at one address [p], which is either
    the lock the keeper held for the identifier or the one it has just
    created ([created]). *)
Lemma TrySync_ok lk info sts σ :
  keeper_ok lk σ →
  ∃ mp p o (created : bool),
    locks_of lk σ = Some mp ∧
    (if created
     then mp !! genDDLLockID info = None ∧
          p = fresh (dom (lockObjs σ)) ∧ o = seeded_Lock info sts
     else mp !! genDDLLockID info = Some (Some p) ∧
          lockObjs σ !! p = Some o) ∧
    TrySync lk info sts σ
    = Some ((genDDLLockID info, (call_TrySync o info sts).2.1,
             (call_TrySync o info sts).2.2),
            {| lockObjs := <[p := (call_TrySync o info sts).1]> (lockObjs σ);
               lockMaps := <[locks lk := <[genDDLLockID info := Some p]> mp]>
                             (lockMaps σ) |}).
Proof.
  intros (mp & Hmp & Hobjs).
  destruct (mp !! genDDLLockID info) as [v|] eqn:Hid.
  - destruct (Hobjs _ _ Hid) as (p & o & -> & Ho).
    exists mp, p, o, false. split; [done|]. split; [done|].
    rewrite (TrySync_existing _ _ _ _ mp p o) by done.
    by rewrite (insert_id mp), (insert_id (lockMaps σ)).
  - exists mp, (fresh (dom (lockObjs σ))), (seeded_Lock info sts), true.
    split; [done|]. split; [done|].
    by apply TrySync_new.
Qed.

Lemma keeper_ok_TrySync lk info sts σ res σ' :
  keeper_ok lk σ →
  TrySync lk info sts σ = Some (res, σ') →
  keeper_ok lk σ'.
Proof.
  intros Hok Hrun.
  destruct (TrySync_ok lk info sts σ Hok) as (mp & p & o & c & Hmp & _ & Heq).
  destruct Hok as (mp' & Hmp' & Hobjs).
  assert (mp' = mp) as -> by congruence.
  rewrite Heq in Hrun. injection Hrun as _ <-.
  exists (<[genDDLLockID info := Some p]> mp). split.
  - unfold locks_of. simpl. apply lookup_insert_eq.
  - intros id v. simpl.
    destruct (decide (id = genDDLLockID info)) as [->|Hne].
    + rewrite lookup_insert_eq. intros [= <-].
      eexists _, _. split; [done|]. apply lookup_insert_eq.
    + rewrite lookup_insert_ne by done. intros Hv.
      destruct (Hobjs _ _ Hv) as (q & oq & -> & Hq).
      destruct (decide (q = p)) as [->|Hqp].
      * eexists _, _. split; [done|]. apply lookup_insert_eq.
      * eexists _, _. split; [done|]. by rewrite lookup_insert_ne.
Qed.

Lemma FindLock_run lk lockID σ mp :
  locks_of lk σ = Some mp →
  FindLock lk lockID σ = Some (default None (mp !! lockID), σ).
Proof.
  intros Hmp. unfold FindLock. run_M.
  rewrite (map_get_run _ _ _ mp Hmp). by destruct (mp !! lockID).
Qed.

(** C9.  [TrySync] returns, and its first result is the identifier
    computed from the [Info], whatever error the lock reports; when the
    keeper held no lock for that identifier, the lock it stores under it
    is a new object, built by [NewLock] from the identifier, the [Info]'s
    task, its [TableInfoBefore] and the table sets, and the other results
    are those of [Lock.TrySync] on that object. *)
Theorem TrySync_returns_lockID
    (lk : LockKeeper) (info : Info) (sts : list SourceTables) (σ : Mem) :
  keeper_ok lk σ →
  ∃ newDDLs err σ',
    TrySync lk info sts σ = Some ((genDDLLockID info, newDDLs, err), σ') ∧
    ∀ mp, locks_of lk σ = Some mp → mp !! genDDLLockID info = None →
      let p := fresh (dom (lockObjs σ)) in
      let o := NewLock (genDDLLockID info) (info_Task info)
                 (info_TableInfoBefore info) sts in
      lockObjs σ !! p = None ∧
      locks_of lk σ' = Some (<[genDDLLockID info := Some p]> mp) ∧
      (newDDLs, err) = (call_TrySync o info sts).2 ∧
      lockObjs σ' !! p = Some (call_TrySync o info sts).1.
Proof.
  intros Hok.
  destruct (TrySync_ok lk info sts σ Hok) as (mp & p & o & c & Hmp & Hc & Heq).
  eexists _, _, _. split; [exact Heq|].
  intros mp' Hmp' Hnone. assert (mp' = mp) as -> by congruence.
  destruct c; [|destruct Hc; congruence].
  destruct Hc as (_ & -> & ->). simpl. split_and!.
  - apply fresh_lockObjs.
  - unfold locks_of. simpl. apply lookup_insert_eq.
  - by destruct (call_TrySync _ info sts) as [? [? ?]].
  - apply lookup_insert_eq.
Qed.

(** C2.  After [TrySync] has returned the identifier [L], with or
    without an error, [FindLockByInfo] of the same [Info] and [FindLock]
    of [L] return the same pointer; it is not [nil], and the object it
    points to is the one [TrySync] called [Lock.TrySync] on: the lock the
    keeper held for [L], or else the one it created. *)
Theorem FindLock_after_TrySync
    (lk : LockKeeper) (info : Info) (sts : list SourceTables) (σ : Mem) :
  keeper_ok lk σ →
  ∃ L newDDLs err σ' p o,
    TrySync lk info sts σ = Some ((L, newDDLs, err), σ') ∧
    FindLockByInfo lk info σ' = Some (Some p, σ') ∧
    FindLock lk L σ' = Some (Some p, σ') ∧
    (newDDLs, err) = (call_TrySync o info sts).2 ∧
    lockObjs σ' !! p = Some (call_TrySync o info sts).1 ∧
    match FindLock lk L σ with
    | Some (Some q, _) => q = p ∧ lockObjs σ !! p = Some o
    | _ => lockObjs σ !! p = None ∧ o = seeded_Lock info sts
    end.
Proof.
  intros Hok.
  destruct (TrySync_ok lk info sts σ Hok) as (mp & p & o & c & Hmp & Hc & Heq).
  eexists _, _, _, _, p, o. split; [exact Heq|].
  assert (Hfind : ∀ id, id = genDDLLockID info →
    FindLock lk id
      {| lockObjs := <[p := (call_TrySync o info sts).1]> (lockObjs σ);
         lockMaps := <[locks lk := <[genDDLLockID info := Some p]> mp]>
                       (lockMaps σ) |}
    = Some (Some p,
      {| lockObjs := <[p := (call_TrySync o info sts).1]> (lockObjs σ);
         lockMaps := <[locks lk := <[genDDLLockID info := Some p]> mp]>
                       (lockMaps σ) |})).
  { intros id ->.
    erewrite FindLock_run by (unfold locks_of; simpl; apply lookup_insert_eq).
    by rewrite lookup_insert_eq. }
  split_and!.
  - by apply Hfind.
  - by apply Hfind.
  - by destruct (call_TrySync o info sts) as [? [? ?]].
  - apply lookup_insert_eq.
  - rewrite (FindLock_run _ _ _ mp Hmp).
    destruct c.
    + destruct Hc as (-> & -> & ->). simpl. split; [|done].
      apply fresh_lockObjs.
    + destruct Hc as (-> & Ho). simpl. done.
Qed.
(** C1.  The identifier depends on the task, the downstream schema and
    the downstream table of the [Info] and on nothing else; two
    [TrySync] calls on one keeper with [Info]s that agree on these three
    fields return the same identifier and use the same lock: the second
    call finds the entry of the first, adds none, and calls
    [Lock.TrySync] on the object the first call left. *)
Theorem genDDLLockID_same_lock (i1 i2 : Info) :
  info_Task i1 = info_Task i2 →
  info_DownSchema i1 = info_DownSchema i2 →
  info_DownTable i1 = info_DownTable i2 →
  genDDLLockID i1 = genDDLLockID i2 ∧
  ∀ (lk : LockKeeper) (sts1 sts2 : list SourceTables) (σ : Mem),
    keeper_ok lk σ →
    ∃ L r1 e1 σ1 r2 e2 σ2 p o1,
      TrySync lk i1 sts1 σ = Some ((L, r1, e1), σ1) ∧
      TrySync lk i2 sts2 σ1 = Some ((L, r2, e2), σ2) ∧
      FindLockByInfo lk i1 σ1 = Some (Some p, σ1) ∧
      FindLockByInfo lk i2 σ2 = Some (Some p, σ2) ∧
      locks_of lk σ2 = locks_of lk σ1 ∧
      lockObjs σ1 !! p = Some o1 ∧
      (r2, e2) = (call_TrySync o1 i2 sts2).2 ∧
      lockObjs σ2 !! p = Some (call_TrySync o1 i2 sts2).1.
Proof.
  intros Ht Hs Hb.
  assert (Hid : genDDLLockID i1 = genDDLLockID i2).
  { unfold genDDLLockID. by rewrite Ht, Hs, Hb. }
  split; [done|]. intros lk sts1 sts2 σ Hok.
  destruct (TrySync_ok lk i1 sts1 σ Hok) as (mp & p & o & c & Hmp & Hc & Heq).
  set (o1 := (call_TrySync o i1 sts1).1) in *.
  set (mp1 := <[genDDLLockID i1 := Some p]> mp) in *.
  set (σ1 := {| lockObjs := <[p := o1]> (lockObjs σ);
                lockMaps := <[locks lk := mp1]> (lockMaps σ) |}) in *.
  assert (Hmp1 : locks_of lk σ1 = Some mp1)
    by (unfold locks_of; simpl; apply lookup_insert_eq).
  assert (Hp1 : mp1 !! genDDLLockID i2 = Some (Some p))
    by (rewrite <-Hid; apply lookup_insert_eq).
  assert (Ho1 : lockObjs σ1 !! p = Some o1) by apply lookup_insert_eq.
  pose proof (TrySync_existing lk i2 sts2 σ1 mp1 p o1 Hmp1 Hp1 Ho1) as Heq2.
  rewrite <-Hid in Heq2.
  eexists _, _, _, σ1, _, _, _, p, o1.
  split; [exact Heq|]. split; [exact Heq2|].
  unfold FindLockByInfo. split_and!.
  - rewrite (FindLock_run _ _ _ mp1 Hmp1). unfold mp1.
    by rewrite lookup_insert_eq.
  - erewrite FindLock_run by exact Hmp1. by rewrite Hp1.
  - done.
  - done.
  - by destruct (call_TrySync o1 i2 sts2) as [? [? ?]].
  - apply lookup_insert_eq.
Qed.

Lemma map_set_run r k v σ m :
  lockMaps σ !! r = Some m →
  map_set r k v σ
  = Some ((), {| lockObjs := lockObjs σ;
                lockMaps := <[r := <[k := v]> m]> (lockMaps σ) |}).
Proof. intros Hr. unfold map_set. by rewrite Hr. Qed.

Lemma map_delete_run r k σ m :
  lockMaps σ !! r = Some m →
  map_delete r k σ
  = Some ((), {| lockObjs := lockObjs σ;
                lockMaps := <[r := delete k m]> (lockMaps σ) |}).
Proof. intros Hr. unfold map_delete. by rewrite Hr. Qed.

Lemma RemoveLock_run lk lockID σ mp :
  locks_of lk σ = Some mp →
  RemoveLock lk lockID σ
  = Some (bool_decide (is_Some (mp !! lockID)),
          {| lockObjs := lockObjs σ;
             lockMaps := <[locks lk := delete lockID mp]> (lockMaps σ) |}).
Proof.
  intros Hmp. unfold RemoveLock. run_M.
  rewrite (map_get_run _ _ _ mp Hmp).
  destruct (mp !! lockID) as [v|];
    by rewrite (map_delete_run _ _ _ mp Hmp).
Qed.

(** C5.  [RemoveLock] of an identifier the keeper does not hold returns
    false and the keeper holds as many locks as before; of an identifier
    it holds, it returns true and the keeper holds exactly one lock
    less; a second [RemoveLock] of the same identifier returns false. *)
Theorem RemoveLock_count
    (lk : LockKeeper) (lockID : string) (σ : Mem) (mp : gmap string ptr) :
  locks_of lk σ = Some mp →
  ∃ existed σ' mp',
    RemoveLock lk lockID σ = Some (existed, σ') ∧
    locks_of lk σ' = Some mp' ∧
    (mp !! lockID = None → existed = false ∧ size mp' = size mp) ∧
    (is_Some (mp !! lockID) → existed = true ∧ S (size mp') = size mp) ∧
    ∃ σ'', RemoveLock lk lockID σ' = Some (false, σ'') ∧
           locks_of lk σ'' = Some mp'.
Proof.
  intros Hmp. rewrite (RemoveLock_run _ _ _ mp Hmp).
  eexists _, _, (delete lockID mp). split; [done|].
  assert (Hmp' : locks_of lk
            {| lockObjs := lockObjs σ;
               lockMaps := <[locks lk := delete lockID mp]> (lockMaps σ) |}
          = Some (delete lockID mp))
    by (unfold locks_of; simpl; apply lookup_insert_eq).
  split_and!.
  - done.
  - intros Hno. rewrite Hno. split.
    + apply bool_decide_eq_false_2. by intros [? ?].
    + by apply map_size_delete_None.
  - intros [v Hv]. split.
    + apply bool_decide_eq_true_2. by rewrite Hv.
    + rewrite <-(insert_delete_id mp lockID v Hv) at 2.
      by rewrite map_size_insert_None by apply lookup_delete_eq.
  - rewrite (RemoveLock_run _ _ _ _ Hmp'). eexists. split.
    + f_equal. f_equal. apply bool_decide_eq_false_2.
      rewrite lookup_delete_eq. by intros [? ?].
    + unfold locks_of. simpl. rewrite lookup_insert_eq.
      by rewrite delete_delete_eq.
Qed.
Lemma for_each_map_set r (l : list (string * ptr)) : ∀ σ m0,
  lockMaps σ !! r = Some m0 →
  for_each l (λ '(k, v), map_set r k v) σ
  = Some ((), {| lockObjs := lockObjs σ;
                lockMaps := <[r := foldl (λ m '(k, v), <[k := v]> m) m0 l]>
                              (lockMaps σ) |}).
Proof.
  induction l as [|[k v] l IH]; intros σ m0 Hr; simpl.
  - run_M. rewrite insert_id by done. by destruct σ.
  - run_M. unfold map_set at 1. rewrite Hr. simpl.
    erewrite IH by (simpl; apply lookup_insert_eq). simpl.
    by rewrite insert_insert_eq.
Qed.

Lemma Locks_run lk σ mp :
  locks_of lk σ = Some mp →
  Locks lk σ
  = Some (fresh (dom (lockMaps σ)),
          {| lockObjs := lockObjs σ;
             lockMaps := <[fresh (dom (lockMaps σ)) := mp]> (lockMaps σ) |}).
Proof.
  intros Hmp. unfold Locks. run_M.
  unfold map_read. unfold locks_of in Hmp. rewrite Hmp. simpl.
  erewrite for_each_map_set by (simpl; apply lookup_insert_eq). simpl.
  rewrite foldl_insert_range, (right_id_L ∅ (∪)).
  by rewrite insert_insert_eq.
Qed.

(** C8.  [Locks] returns a new map with the entries the keeper's map has
    at the call, and leaves the keeper's map and the locks as they are.
    The two maps are different objects: from any later state, storing
    into or deleting from the returned map leaves the keeper's map as it
    is, and [TrySync] and [RemoveLock] on the keeper leave the returned
    map as it is. *)
Theorem Locks_independent_copy
    (lk : LockKeeper) (σ : Mem) (mp : gmap string ptr) :
  locks_of lk σ = Some mp →
  ∃ r σ',
    Locks lk σ = Some (r, σ') ∧
    lockMaps σ !! r = None ∧
    r ≠ locks lk ∧
    lockMaps σ' !! r = Some mp ∧
    locks_of lk σ' = Some mp ∧
    lockObjs σ' = lockObjs σ ∧
    (∀ τ m k v, lockMaps τ !! r = Some m →
       ∃ τ', map_set r k v τ = Some ((), τ') ∧
             lockMaps τ' !! r = Some (<[k := v]> m) ∧
             locks_of lk τ' = locks_of lk τ) ∧
    (∀ τ m k, lockMaps τ !! r = Some m →
       ∃ τ', map_delete r k τ = Some ((), τ') ∧
             lockMaps τ' !! r = Some (delete k m) ∧
             locks_of lk τ' = locks_of lk τ) ∧
    (∀ τ info sts, keeper_ok lk τ →
       ∃ res τ', TrySync lk info sts τ = Some (res, τ') ∧
                 lockMaps τ' !! r = lockMaps τ !! r) ∧
    (∀ τ m lockID, locks_of lk τ = Some m →
       ∃ existed τ', RemoveLock lk lockID τ = Some (existed, τ') ∧
                     lockMaps τ' !! r = lockMaps τ !! r).
Proof.
  intros Hmp. rewrite (Locks_run _ _ _ Hmp).
  set (r := fresh (dom (lockMaps σ))).
  assert (Hfresh : lockMaps σ !! r = None) by apply fresh_lockMaps.
  assert (Hne : r ≠ locks lk).
  { intros Heq. unfold locks_of in Hmp. rewrite <-Heq in Hmp. congruence. }
  eexists r, _. split; [done|]. split_and!; try done.
  - simpl. apply lookup_insert_eq.
  - unfold locks_of. simpl. by rewrite lookup_insert_ne.
  - intros τ m k v Hr. rewrite (map_set_run _ _ _ _ m Hr).
    eexists. split; [done|]. unfold locks_of. simpl.
    by rewrite lookup_insert_eq, lookup_insert_ne.
  - intros τ m k Hr. rewrite (map_delete_run _ _ _ m Hr).
    eexists. split; [done|]. unfold locks_of. simpl.
    by rewrite lookup_insert_eq, lookup_insert_ne.
  - intros τ info sts Hok.
    destruct (TrySync_ok lk info sts τ Hok)
      as (m & p & o & c & Hm & _ & Heq).
    rewrite Heq. eexists _, _. split; [done|]. simpl.
    by rewrite lookup_insert_ne.
  - intros τ m lockID Hm. rewrite (RemoveLock_run _ _ _ m Hm).
    eexists _, _. split; [done|]. simpl. by rewrite lookup_insert_ne.
Qed.
End LockKeeper_facts.

(** ** More on the [LockKeeper]: construction, frames and sharing *)

Section LockKeeper_more.
Context `{!GoEnv}.

Lemma map_make_run σ :
  map_make σ
  = Some (fresh (dom (lockMaps σ)),
          {| lockObjs := lockObjs σ;
             lockMaps := <[fresh (dom (lockMaps σ)) := ∅]> (lockMaps σ) |}).
Proof. reflexivity. Qed.

(** A keeper whose map is the new, empty map of [map_make]. *)
Lemma made_keeper_empty σ :
  let lk := {| locks := fresh (dom (lockMaps σ)) |} in
  let σ' := {| lockObjs := lockObjs σ;
               lockMaps := <[fresh (dom (lockMaps σ)) := ∅]> (lockMaps σ) |} in
  locks_of lk σ' = Some ∅ ∧ keeper_ok lk σ' ∧ locks_distinct lk σ' ∧
  (∀ id, FindLock lk id σ' = Some (None, σ')) ∧
  (∀ r, is_Some (lockMaps σ !! r) →
        r ≠ locks lk ∧ lockMaps σ' !! r = lockMaps σ !! r).
Proof.
  intros lk σ'.
  assert (Hmp : locks_of lk σ' = Some ∅)
    by (unfold locks_of; simpl; apply lookup_insert_eq).
  split_and!.
  - done.
  - exists ∅. split; [done|]. intros id v Hv. by rewrite lookup_empty in Hv.
  - intros mp id1 id2 p Hmp' H1. rewrite Hmp in Hmp'. injection Hmp' as <-.
    by rewrite lookup_empty in H1.
  - intros id. rewrite (FindLock_run _ _ _ ∅ Hmp). by rewrite lookup_empty.
  - intros r [m Hr].
    assert (r ≠ fresh (dom (lockMaps σ))) as Hne.
    { intros ->. by rewrite fresh_lockMaps in Hr. }
    split; [done|]. simpl. by rewrite lookup_insert_ne.
Qed.

(** X1.  [Clear] gives the keeper a new, empty map: afterwards the keeper
    holds no lock and [FindLock] returns [nil] for every identifier,
    whatever it held before.  It deletes nothing: the [Lock] objects and
    every map that existed (the keeper's former map, the maps [Locks] has
    returned) are as they were. *)
Theorem Clear_discards_all (lk : LockKeeper) (σ : Mem) :
  ∃ lk' σ',
    Clear lk σ = Some (lk', σ') ∧
    locks_of lk' σ' = Some ∅ ∧
    keeper_ok lk' σ' ∧
    (∀ id, FindLock lk' id σ' = Some (None, σ')) ∧
    lockObjs σ' = lockObjs σ ∧
    (∀ r, is_Some (lockMaps σ !! r) →
          r ≠ locks lk' ∧ lockMaps σ' !! r = lockMaps σ !! r).
Proof.
  destruct (made_keeper_empty σ) as (H1 & H2 & _ & H3 & H4).
  eexists _, _. split; [reflexivity|]. by split_and!.
Qed.

(** X2.  [NewLockKeeper] returns a keeper that holds no lock, on a map of
    its own: every keeper that existed keeps its map and its state, so
    several keepers can live side by side. *)
Theorem NewLockKeeper_empty (σ : Mem) :
  ∃ lk σ',
    NewLockKeeper σ = Some (lk, σ') ∧
    locks_of lk σ' = Some ∅ ∧
    keeper_ok lk σ' ∧
    (∀ id, FindLock lk id σ' = Some (None, σ')) ∧
    (∀ lk0, keeper_ok lk0 σ →
       locks lk0 ≠ locks lk ∧ keeper_ok lk0 σ' ∧
       locks_of lk0 σ' = locks_of lk0 σ).
Proof.
  destruct (made_keeper_empty σ) as (H1 & H2 & _ & H3 & H4).
  eexists _, _. split; [reflexivity|]. split_and!; try done.
  intros lk0 (mp & Hmp & Hobjs).
  destruct (H4 (locks lk0)) as [Hne Hsame]; [by exists mp|].
  split_and!; [done| |done].
  exists mp. split; [unfold locks_of; by rewrite Hsame|]. exact Hobjs.
Qed.
(** The two invariants pass to a state whose keeper map is a part of the
    former one and which has kept the [Lock] objects. *)
Lemma keeper_inv_sub lk σ σ' mp mp' :
  locks_of lk σ = Some mp →
  locks_of lk σ' = Some mp' →
  mp' ⊆ mp →
  (∀ p, is_Some (lockObjs σ !! p) → is_Some (lockObjs σ' !! p)) →
  (keeper_ok lk σ → keeper_ok lk σ') ∧
  (locks_distinct lk σ → locks_distinct lk σ').
Proof.
  intros Hmp Hmp' Hsub Hobjs. split.
  - intros (mp0 & Hmp0 & Hok). assert (mp0 = mp) as -> by congruence.
    exists mp'. split; [done|]. intros id v Hv.
    destruct (Hok id v (lookup_weaken _ _ _ _ Hv Hsub)) as (q & o & -> & Hq).
    destruct (Hobjs q) as [o' Ho']; [by exists o|]. by exists q, o'.
  - intros Hdist mp0 id1 id2 q Hmp0 H1 H2.
    assert (mp0 = mp') as -> by congruence.
    eapply (Hdist mp); [done| |]; by eapply lookup_weaken.
Qed.

Lemma locks_distinct_TrySync lk info sts σ res σ' :
  keeper_ok lk σ →
  locks_distinct lk σ →
  TrySync lk info sts σ = Some (res, σ') →
  locks_distinct lk σ'.
Proof.
  intros Hok Hdist Hrun.
  destruct (TrySync_ok lk info sts σ Hok) as (mp & p & o & c & Hmp & Hc & Heq).
  rewrite Heq in Hrun. injection Hrun as _ <-.
  intros mp' id1 id2 q Hmp'. unfold locks_of in Hmp'. simpl in Hmp'.
  rewrite lookup_insert_eq in Hmp'. injection Hmp' as <-.
  destruct c.
  - destruct Hc as (Hnone & -> & ->).
    destruct Hok as (mp0 & Hmp0 & Hobjs).
    assert (mp0 = mp) as -> by congruence.
    assert (Hfresh : ∀ id, mp !! id ≠ Some (Some (fresh (dom (lockObjs σ))))).
    { intros id Hid. destruct (Hobjs _ _ Hid) as (q' & o' & [= <-] & Hq').
      by rewrite fresh_lockObjs in Hq'. }
    destruct (decide (id1 = genDDLLockID info)) as [->|Hne1];
      destruct (decide (id2 = genDDLLockID info)) as [->|Hne2];
      rewrite ?lookup_insert_eq, ?lookup_insert_ne by done; try done.
    + intros [= <-] H2. by destruct (Hfresh id2).
    + intros H1 [= <-]. by destruct (Hfresh id1).
    + intros H1 H2. by eapply (Hdist mp).
  - destruct Hc as (Hheld & _). rewrite (insert_id mp) by done.
    intros H1 H2. by eapply (Hdist mp).
Qed.

(** X3.  The keeper's methods keep the keeper in order: from a state in
    which every entry of its map is a non-nil pointer to a [Lock] object
    and no two identifiers share an object, [TrySync], [RemoveLock] and
    [Locks] return and lead to such a state again. *)
Theorem LockKeeper_invariant
    (lk : LockKeeper) (σ : Mem) (info : Info) (sts : list SourceTables)
    (lockID : string) :
  keeper_ok lk σ →
  locks_distinct lk σ →
  (∃ res σ', TrySync lk info sts σ = Some (res, σ') ∧
             keeper_ok lk σ' ∧ locks_distinct lk σ') ∧
  (∃ existed σ', RemoveLock lk lockID σ = Some (existed, σ') ∧
                 keeper_ok lk σ' ∧ locks_distinct lk σ') ∧
  (∃ r σ', Locks lk σ = Some (r, σ') ∧
           keeper_ok lk σ' ∧ locks_distinct lk σ').
Proof.
  intros Hok Hdist. split_and!.
  - destruct (TrySync_ok lk info sts σ Hok) as (mp & p & o & c & _ & _ & Heq).
    eexists _, _. split; [exact Heq|]. split.
    + by eapply keeper_ok_TrySync.
    + by eapply locks_distinct_TrySync.
  - pose proof Hok as (mp & Hmp & Hobjs).
    rewrite (RemoveLock_run _ _ _ mp Hmp). eexists _, _. split; [done|].
    match goal with |- keeper_ok _ ?τ ∧ _ =>
      destruct (keeper_inv_sub lk σ τ mp (delete lockID mp)) as [H1 H2] end.
    + done.
    + unfold locks_of. simpl. apply lookup_insert_eq.
    + apply delete_subseteq.
    + done.
    + split; [by apply H1|by apply H2].
  - pose proof Hok as (mp & Hmp & Hobjs).
    rewrite (Locks_run _ _ mp Hmp). eexists _, _. split; [done|].
    match goal with |- keeper_ok _ ?τ ∧ _ =>
      destruct (keeper_inv_sub lk σ τ mp mp) as [H1 H2] end.
    + done.
    + unfold locks_of. simpl. rewrite lookup_insert_ne; [done|].
      intros Heq. unfold locks_of in Hmp. rewrite <-Heq in Hmp.
      by rewrite fresh_lockMaps in Hmp.
    + done.
    + done.
    + split; [by apply H1|by apply H2].
Qed.

(** X5.  [RemoveLock] only forgets the entry: the entries of the other
    identifiers and the other maps are as they were, [FindLock] of the
    identifier returns [nil] afterwards, and no [Lock] object is changed
    or destroyed, so a pointer a caller got from [FindLock] before still
    points to the lock. *)
Theorem RemoveLock_frame
    (lk : LockKeeper) (lockID : string) (σ : Mem) (mp : gmap string ptr) :
  locks_of lk σ = Some mp →
  ∃ existed σ' mp',
    RemoveLock lk lockID σ = Some (existed, σ') ∧
    locks_of lk σ' = Some mp' ∧
    mp' !! lockID = None ∧
    FindLock lk lockID σ' = Some (None, σ') ∧
    (∀ id, id ≠ lockID → mp' !! id = mp !! id) ∧
    lockObjs σ' = lockObjs σ ∧
    (∀ r, r ≠ locks lk → lockMaps σ' !! r = lockMaps σ !! r).
Proof.
  intros Hmp. rewrite (RemoveLock_run _ _ _ mp Hmp).
  eexists _, _, (delete lockID mp). split; [done|].
  assert (Hmp' : locks_of lk
            {| lockObjs := lockObjs σ;
               lockMaps := <[locks lk := delete lockID mp]> (lockMaps σ) |}
          = Some (delete lockID mp))
    by (unfold locks_of; simpl; apply lookup_insert_eq).
  split_and!.
  - done.
  - apply lookup_delete_eq.
  - rewrite (FindLock_run _ _ _ _ Hmp'). by rewrite lookup_delete_eq.
  - intros id Hne. by apply lookup_delete_ne.
  - done.
  - intros r Hne. simpl. by rewrite lookup_insert_ne.
Qed.

(** X6.  [TrySync] after [RemoveLock] of the lock does not bring the
    removed lock back: it builds a new [Lock] with [NewLock] at another
    address, and the removed object stays as it was. *)
Theorem TrySync_after_RemoveLock
    (lk : LockKeeper) (info : Info) (sts : list SourceTables) (σ : Mem)
    (mp : gmap string ptr) (p : loc) :
  keeper_ok lk σ →
  locks_of lk σ = Some mp →
  mp !! genDDLLockID info = Some (Some p) →
  ∃ σ1 newDDLs err σ2 p',
    RemoveLock lk (genDDLLockID info) σ = Some (true, σ1) ∧
    TrySync lk info sts σ1 = Some ((genDDLLockID info, newDDLs, err), σ2) ∧
    FindLockByInfo lk info σ2 = Some (Some p', σ2) ∧
    p' ≠ p ∧
    lockObjs σ2 !! p = lockObjs σ !! p ∧
    (newDDLs, err) = (call_TrySync (seeded_Lock info sts) info sts).2 ∧
    lockObjs σ2 !! p' = Some (call_TrySync (seeded_Lock info sts) info sts).1.
Proof.
  intros Hok Hmp Hheld.
  destruct Hok as (mp0 & Hmp0 & Hobjs). assert (mp0 = mp) as -> by congruence.
  destruct (Hobjs _ _ Hheld) as (q & o & [= <-] & Ho).
  rewrite (RemoveLock_run _ _ _ mp Hmp), Hheld.
  rewrite bool_decide_eq_true_2 by by eexists.
  set (σ1 := {| lockObjs := lockObjs σ;
                lockMaps := <[locks lk := delete (genDDLLockID info) mp]>
                              (lockMaps σ) |}).
  assert (Hmp1 : locks_of lk σ1 = Some (delete (genDDLLockID info) mp))
    by (unfold locks_of; simpl; apply lookup_insert_eq).
  pose proof (TrySync_new lk info sts σ1 _ Hmp1 (lookup_delete_eq _ _)) as Hnew.
  simpl in Hnew.
  assert (Hne : fresh (dom (lockObjs σ)) ≠ p).
  { intros Heq. rewrite <-Heq in Ho. by rewrite fresh_lockObjs in Ho. }
  eexists σ1, _, _, _, (fresh (dom (lockObjs σ))).
  split; [done|]. split; [exact Hnew|]. split_and!.
  - unfold FindLockByInfo.
    erewrite FindLock_run by (unfold locks_of; simpl; apply lookup_insert_eq).
    by rewrite lookup_insert_eq.
  - done.
  - simpl. by rewrite lookup_insert_ne.
  - by destruct (call_TrySync _ info sts) as [? [? ?]].
  - simpl. apply lookup_insert_eq.
Qed.

(** X7.  The map [Locks] returns is a copy of the map only: its entries
    are the keeper's pointers, so a later [TrySync] on the keeper changes
    the [Lock] object that the copy's entry points to. *)
Theorem Locks_shares_locks
    (lk : LockKeeper) (info : Info) (sts : list SourceTables) (σ : Mem)
    (mp : gmap string ptr) (p : loc) (o : Lock) :
  locks_of lk σ = Some mp →
  mp !! genDDLLockID info = Some (Some p) →
  lockObjs σ !! p = Some o →
  ∃ r σ1 res σ2,
    Locks lk σ = Some (r, σ1) ∧
    TrySync lk info sts σ1 = Some (res, σ2) ∧
    lockMaps σ2 !! r = Some mp ∧
    lockObjs σ1 !! p = Some o ∧
    lockObjs σ2 !! p = Some (call_TrySync o info sts).1.
Proof.
  intros Hmp Hheld Ho. rewrite (Locks_run _ _ mp Hmp).
  set (r := fresh (dom (lockMaps σ))).
  assert (Hne : r ≠ locks lk).
  { intros Heq. unfold locks_of in Hmp. rewrite <-Heq in Hmp.
    unfold r in Hmp. by rewrite fresh_lockMaps in Hmp. }
  set (σ1 := {| lockObjs := lockObjs σ; lockMaps := <[r := mp]> (lockMaps σ) |}).
  assert (Hmp1 : locks_of lk σ1 = Some mp)
    by (unfold locks_of; simpl; by rewrite lookup_insert_ne).
  pose proof (TrySync_existing lk info sts σ1 mp p o Hmp1 Hheld Ho) as Hrun.
  eexists r, σ1, _, _. split; [done|]. split; [exact Hrun|]. split_and!.
  - simpl. apply lookup_insert_eq.
  - done.
  - simpl. apply lookup_insert_eq.
Qed.
(** X8.  [Info]s with different identifiers get different [Lock] objects:
    after [TrySync] for one and then for the other, the keeper holds two
    locks at two addresses, and the second call has left the lock of the
    first as the first call left it. *)
Theorem TrySync_separate_locks
    (lk : LockKeeper) (i1 i2 : Info) (sts1 sts2 : list SourceTables) (σ : Mem) :
  keeper_ok lk σ →
  locks_distinct lk σ →
  genDDLLockID i1 ≠ genDDLLockID i2 →
  ∃ res1 σ1 res2 σ2 p1 p2,
    TrySync lk i1 sts1 σ = Some (res1, σ1) ∧
    TrySync lk i2 sts2 σ1 = Some (res2, σ2) ∧
    FindLockByInfo lk i1 σ2 = Some (Some p1, σ2) ∧
    FindLockByInfo lk i2 σ2 = Some (Some p2, σ2) ∧
    p1 ≠ p2 ∧
    is_Some (lockObjs σ1 !! p1) ∧
    lockObjs σ2 !! p1 = lockObjs σ1 !! p1.
Proof.
  intros Hok Hdist Hne.
  destruct (TrySync_ok lk i1 sts1 σ Hok)
    as (mp & p1 & o1 & c1 & Hmp & Hc1 & Heq1).
  pose proof (keeper_ok_TrySync _ _ _ _ _ _ Hok Heq1) as Hok1.
  pose proof (locks_distinct_TrySync _ _ _ _ _ _ Hok Hdist Heq1) as Hdist1.
  set (σ1 := {| lockObjs := <[p1 := (call_TrySync o1 i1 sts1).1]> (lockObjs σ);
                lockMaps := <[locks lk := <[genDDLLockID i1 := Some p1]> mp]>
                              (lockMaps σ) |}) in *.
  set (mp1 := <[genDDLLockID i1 := Some p1]> mp) in *.
  assert (Hmp1 : locks_of lk σ1 = Some mp1)
    by (unfold locks_of; simpl; apply lookup_insert_eq).
  assert (Hp1 : mp1 !! genDDLLockID i1 = Some (Some p1))
    by apply lookup_insert_eq.
  assert (Ho1 : is_Some (lockObjs σ1 !! p1))
    by (simpl; rewrite lookup_insert_eq; by eexists).
  destruct (TrySync_ok lk i2 sts2 σ1 Hok1)
    as (mp1' & p2 & o2 & c2 & Hmp1' & Hc2 & Heq2).
  assert (mp1' = mp1) as -> by congruence.
  assert (Hp12 : p1 ≠ p2).
  { destruct c2.
    - destruct Hc2 as (_ & -> & _). intros Heq. rewrite Heq in Ho1.
      rewrite fresh_lockObjs in Ho1. by destruct Ho1.
    - destruct Hc2 as (Hheld2 & _). intros <-.
      by apply Hne, (Hdist1 mp1 _ _ p1). }
  eexists _, σ1, _, _, p1, p2.
  split; [exact Heq1|]. split; [exact Heq2|].
  unfold FindLockByInfo. split_and!.
  - erewrite FindLock_run by (unfold locks_of; simpl; apply lookup_insert_eq).
    by rewrite lookup_insert_ne, Hp1 by done.
  - erewrite FindLock_run by (unfold locks_of; simpl; apply lookup_insert_eq).
    by rewrite lookup_insert_eq.
  - done.
  - done.
  - cbn [lockObjs]. by rewrite (lookup_insert_ne _ p2 p1).
Qed.

(** X9.  [FindLock] and [FindLockByInfo] only read: they leave the memory
    as it is; they return [nil] exactly when the keeper holds no lock for
    the identifier, and otherwise a pointer to a [Lock] object. *)
Theorem FindLock_reads
    (lk : LockKeeper) (lockID : string) (info : Info) (σ : Mem) :
  keeper_ok lk σ →
  ∃ mp l l',
    locks_of lk σ = Some mp ∧
    FindLock lk lockID σ = Some (l, σ) ∧
    FindLockByInfo lk info σ = Some (l', σ) ∧
    (l = None ↔ mp !! lockID = None) ∧
    (l' = None ↔ mp !! genDDLLockID info = None) ∧
    (∀ p, l = Some p → mp !! lockID = Some (Some p) ∧
                       is_Some (lockObjs σ !! p)).
Proof.
  intros (mp & Hmp & Hobjs).
  assert (Hnil : ∀ id, default None (mp !! id) = None ↔ mp !! id = None).
  { intros id. destruct (mp !! id) as [v|] eqn:Hv; simpl; [|done].
    destruct (Hobjs _ _ Hv) as (q & o & -> & _). done. }
  exists mp, (default None (mp !! lockID)),
    (default None (mp !! genDDLLockID info)).
  split; [done|]. split; [by apply FindLock_run|].
  split; [by apply FindLock_run|]. split; [apply Hnil|]. split; [apply Hnil|].
  intros p Hp. destruct (mp !! lockID) as [v|] eqn:Hv; simpl in Hp; [|done].
  subst v. destruct (Hobjs _ _ Hv) as (q & o & [= <-] & Ho).
  split; [done|]. by exists o.
Qed.
End LockKeeper_more.

(** ** More on the [TableKeeper] *)

Section TableKeeper_more.
Context `{!GoEnv}.

(** X10.  [Init] replaces the contents of the keeper by the snapshot,
    whatever the keeper held and in whatever order [range] enumerates the
    snapshot: nothing of the former contents is left, and [FindTables] of
    a task that is not in the snapshot is empty. *)
Theorem Init_replaces
    (tk tk0 : TableKeeper) (stm : gmap string (gmap string SourceTables)) :
  Init tk stm = {| tables := stm |} ∧
  Init tk stm = Init tk0 stm ∧
  (∀ task, stm !! task = None → FindTables (Init tk stm) task = Some []).
Proof.
  assert (Heq : ∀ k, Init k stm = {| tables := stm |}).
  { intros k. pose proof (Init_tables k stm) as Ht.
    destruct (Init k stm) as [t]. simpl in Ht. by subst t. }
  split_and!.
  - apply Heq.
  - by rewrite !Heq.
  - intros task Hno. rewrite Heq. unfold FindTables. simpl. by rewrite Hno.
Qed.

Lemma Update_live_others (tk : TableKeeper) (st : SourceTables) task source :
  st_IsDeleted st = false →
  (task, source) ≠ (st_Task st, st_Source st) →
  tables_lookup (tables (Update tk st).1) task source
  = tables_lookup (tables tk) task source.
Proof.
  intros Hlive Hne. unfold Update. rewrite Hlive. cbn [fst tables].
  rewrite tables_lookup_assign_ne.
  - apply tables_lookup_ensure.
  - done.
  - rewrite tables_ensure_lookup. by eexists.
Qed.

Lemma Update_live_key (tk : TableKeeper) (st : SourceTables) :
  st_IsDeleted st = false →
  tables (Update tk st).1 !! st_Task st
  = Some (<[st_Source st := st]> (default ∅ (tables tk !! st_Task st))).
Proof.
  intros Hlive. unfold Update. rewrite Hlive. cbn [fst tables].
  unfold tables_assign. rewrite lookup_insert_eq.
  by rewrite tables_ensure_lookup.
Qed.

(** X11.  [Update] with the tombstone unset changes the entry of
    [(st.Task, st.Source)] only: every other entry is as it was, and the
    task is a key of the keeper afterwards, also when it was not before. *)
Theorem Update_live_frame (tk : TableKeeper) (st : SourceTables) :
  st_IsDeleted st = false →
  (∀ task source, (task, source) ≠ (st_Task st, st_Source st) →
     tables_lookup (tables (Update tk st).1) task source
     = tables_lookup (tables tk) task source) ∧
  tables (Update tk st).1 !! st_Task st
  = Some (<[st_Source st := st]> (default ∅ (tables tk !! st_Task st))) ∧
  (∀ task, task ≠ st_Task st →
     tables (Update tk st).1 !! task = tables tk !! task).
Proof.
  intros Hlive. split_and!.
  - intros task source Hne. by apply Update_live_others.
  - by apply Update_live_key.
  - intros task Hne. unfold Update. rewrite Hlive. cbn [fst tables].
    unfold tables_assign. rewrite lookup_insert_ne by done.
    unfold tables_ensure. destruct (tables tk !! st_Task st); [done|].
    by rewrite lookup_insert_ne.
Qed.

(** X12.  [Update] of a table set and then of its tombstone: both return
    true, the entry is gone and every other entry is as it was before the
    two calls; the task stays a key of the keeper, also when the keeper
    did not hold it before. *)
Theorem Update_then_tombstone (tk : TableKeeper) (st del : SourceTables) :
  st_IsDeleted st = false →
  st_IsDeleted del = true →
  st_Task del = st_Task st →
  st_Source del = st_Source st →
  let tk1 := (Update tk st).1 in
  let tk2 := (Update tk1 del).1 in
  (Update tk st).2 = true ∧
  (Update tk1 del).2 = true ∧
  tables_lookup (tables tk2) (st_Task st) (st_Source st) = None ∧
  (∀ task source, (task, source) ≠ (st_Task st, st_Source st) →
     tables_lookup (tables tk2) task source
     = tables_lookup (tables tk) task source) ∧
  is_Some (tables tk2 !! st_Task st).
Proof.
  intros Hlive Hdel Ht Hs tk1 tk2.
  pose proof (Update_live_key tk st Hlive) as Hkey.
  pose proof (λ task source, Update_live_others tk st task source Hlive)
    as Hframe.
  fold tk1 in Hframe, Hkey.
  assert (Hstep : Update tk1 del
    = ({| tables := <[st_Task st := delete (st_Source st)
                       (<[st_Source st := st]>
                          (default ∅ (tables tk !! st_Task st)))]>
                      (tables tk1) |}, true)).
  { unfold Update at 1. rewrite Hdel, Ht, Hs, Hkey.
    by rewrite lookup_insert_eq. }
  subst tk2. rewrite Hstep. cbn [fst snd tables].
  split_and!.
  - unfold Update. by rewrite Hlive.
  - done.
  - unfold tables_lookup. rewrite lookup_insert_eq. simpl.
    apply lookup_delete_eq.
  - intros task source Hne. rewrite <-(Hframe task source Hne).
    unfold tables_lookup.
    destruct (decide (task = st_Task st)) as [->|Hnt].
    + rewrite lookup_insert_eq, Hkey. simpl.
      apply lookup_delete_ne. congruence.
    + by rewrite lookup_insert_ne.
  - rewrite lookup_insert_eq. by eexists.
Qed.
(** X13.  [RemoveTable] never removes a source entry or a task: the keeper
    has the same tasks and the same [(task, source)] entries afterwards,
    also when the table was the last one of its source, and the entries
    of the other sources are as they were.  For a source the task does
    not hold it changes nothing, returns false and creates no entry. *)
Theorem RemoveTable_keeps_entries
    (tk : TableKeeper) (task source schema table : string) :
  let tk' := (RemoveTable tk task source schema table).1 in
  (∀ t s, is_Some (tables_lookup (tables tk') t s)
          ↔ is_Some (tables_lookup (tables tk) t s)) ∧
  (∀ t s, (t, s) ≠ (task, source) →
     tables_lookup (tables tk') t s = tables_lookup (tables tk) t s) ∧
  (∀ t, is_Some (tables tk' !! t) ↔ is_Some (tables tk !! t)) ∧
  (tables_lookup (tables tk) task source = None →
     RemoveTable tk task source schema table = (tk, false)).
Proof.
  intros tk'. subst tk'. unfold tables_lookup.
  destruct (tables tk !! task) as [m|] eqn:Hm;
    [destruct (m !! source) as [st|] eqn:Hs|].
  - rewrite (RemoveTable_present tk _ _ _ _ m st Hm Hs). cbn [fst tables].
    assert (Hother : ∀ t s, (t, s) ≠ (task, source) →
      <[task := <[source := (SourceTables_RemoveTable st schema table).1]> m]>
        (tables tk) !! t ≫= (.!! s) = tables tk !! t ≫= (.!! s)).
    { intros t s Hne. destruct (decide (t = task)) as [->|Hnt].
      - rewrite lookup_insert_eq, Hm. simpl.
        apply lookup_insert_ne. congruence.
      - by rewrite lookup_insert_ne. }
    split_and!.
    + intros t s. destruct (decide ((t, s) = (task, source))) as [[= -> ->]|Hne].
      * rewrite lookup_insert_eq, Hm. simpl.
        rewrite lookup_insert_eq, Hs. split; by eexists.
      * by rewrite Hother.
    + exact Hother.
    + intros t. destruct (decide (t = task)) as [->|Hnt].
      * rewrite lookup_insert_eq, Hm. split; by eexists.
      * by rewrite lookup_insert_ne.
    + simpl. rewrite Hs. intros [=].
  - unfold RemoveTable. rewrite Hm, Hs. by split_and!.
  - unfold RemoveTable. rewrite Hm. by split_and!.
Qed.

(** X14.  [AddTable] never creates a task, and on a task the keeper holds
    it always leaves an entry for the source (it creates one when there
    was none); the entries of the other sources are as they were. *)
Theorem AddTable_entries
    (tk : TableKeeper) (task source schema table : string) :
  let tk' := (AddTable tk task source schema table).1 in
  (∀ t s, (t, s) ≠ (task, source) →
     tables_lookup (tables tk') t s = tables_lookup (tables tk) t s) ∧
  (is_Some (tables_lookup (tables tk') task source)
   ↔ is_Some (tables tk !! task)) ∧
  (∀ t, is_Some (tables tk' !! t) ↔ is_Some (tables tk !! t)).
Proof.
  intros tk'. subst tk'. unfold tables_lookup.
  destruct (tables tk !! task) as [m|] eqn:Hm.
  - rewrite (AddTable_present tk _ _ _ _ m Hm). cbn [fst tables].
    split_and!.
    + intros t s Hne. destruct (decide (t = task)) as [->|Hnt].
      * rewrite lookup_insert_eq, Hm. simpl.
        apply lookup_insert_ne. congruence.
      * by rewrite lookup_insert_ne.
    + rewrite lookup_insert_eq. simpl. rewrite lookup_insert_eq.
      split; by eexists.
    + intros t. destruct (decide (t = task)) as [->|Hnt].
      * rewrite lookup_insert_eq, Hm. split; by eexists.
      * by rewrite lookup_insert_ne.
  - unfold AddTable. rewrite Hm. cbn [fst tables]. rewrite Hm. simpl.
    split_and!; [done| |done]. split; by intros [? ?].
Qed.

Lemma tables_keyed_sub (t t' : gmap string (gmap string SourceTables)) :
  (∀ task source st, tables_lookup t' task source = Some st →
     tables_lookup t task source = Some st) →
  tables_keyed t → tables_keyed t'.
Proof. intros Hsub Hk task source st Hst. by apply Hk, Hsub. Qed.

Lemma Update_tombstone_sub (tk : TableKeeper) (st : SourceTables) :
  st_IsDeleted st = true →
  ∀ task source st0,
    tables_lookup (tables (Update tk st).1) task source = Some st0 →
    tables_lookup (tables tk) task source = Some st0.
Proof.
  intros Hdel task source st0. unfold Update. rewrite Hdel.
  destruct (tables tk !! st_Task st) as [m|] eqn:Hm; [|done].
  destruct (m !! st_Source st) as [old|] eqn:Hs; [|done].
  cbn [fst tables]. unfold tables_lookup.
  destruct (decide (task = st_Task st)) as [->|Hnt].
  - rewrite lookup_insert_eq, Hm. simpl.
    destruct (decide (source = st_Source st)) as [->|Hns].
    + by rewrite lookup_delete_eq.
    + by rewrite lookup_delete_ne.
  - by rewrite lookup_insert_ne.
Qed.

(** X15.  The keeper stores every table set under its own task and source
    as long as the snapshots given to [Init] do: a new keeper does,
    [Update] keeps it so, and [Init] gives a keeper that does exactly when
    the snapshot does. *)
Theorem tables_keyed_kept
    (tk : TableKeeper) (st : SourceTables)
    (stm : gmap string (gmap string SourceTables)) :
  tables_keyed (tables NewTableKeeper) ∧
  (tables_keyed (tables tk) → tables_keyed (tables (Update tk st).1)) ∧
  (tables_keyed (tables (Init tk stm)) ↔ tables_keyed stm).
Proof.
  split_and!.
  - intros task source st0. unfold tables_lookup. simpl.
    by rewrite lookup_empty.
  - intros Hk. destruct (st_IsDeleted st) eqn:Hdel.
    + eapply tables_keyed_sub; [|exact Hk].
      by apply Update_tombstone_sub.
    + intros task source st0 Hst0.
      destruct (decide ((task, source) = (st_Task st, st_Source st)))
        as [[= -> ->]|Hne].
      * unfold tables_lookup in Hst0.
        rewrite (Update_live_key tk st Hdel) in Hst0. simpl in Hst0.
        rewrite lookup_insert_eq in Hst0. by injection Hst0 as <-.
      * rewrite (Update_live_others tk st _ _ Hdel Hne) in Hst0.
        by apply Hk.
  - by rewrite Init_tables.
Qed.
Lemma Update_tombstone_lookup (tk : TableKeeper) (st : SourceTables) task source :
  st_IsDeleted st = true →
  tables_lookup (tables (Update tk st).1) task source
  = if decide ((task, source) = (st_Task st, st_Source st)) then None
    else tables_lookup (tables tk) task source.
Proof.
  intros Hdel. unfold Update. rewrite Hdel. unfold tables_lookup.
  destruct (tables tk !! st_Task st) as [m|] eqn:Hm;
    [destruct (m !! st_Source st) as [old|] eqn:Hs|]; cbn [fst tables].
  - destruct (decide (task = st_Task st)) as [->|Hnt].
    + rewrite lookup_insert_eq, Hm. simpl.
      destruct (decide (source = st_Source st)) as [->|Hns].
      * rewrite lookup_delete_eq. by rewrite decide_True.
      * rewrite lookup_delete_ne by done. rewrite decide_False; congruence.
    + rewrite lookup_insert_ne by done. rewrite decide_False; congruence.
  - case_decide as Heq; [|done]. injection Heq as -> ->.
    rewrite Hm. simpl. by rewrite Hs.
  - case_decide as Heq; [|done]. injection Heq as -> ->. by rewrite Hm.
Qed.

Lemma elem_of_values (m : gmap string SourceTables) x :
  x ∈ (map_to_list m).*2 ↔ ∃ k, m !! k = Some x.
Proof.
  rewrite list_elem_of_fmap. split.
  - intros ([k y] & -> & Hin). exists k. by apply elem_of_map_to_list.
  - intros [k Hk]. exists (k, x). split; [done|].
    by apply elem_of_map_to_list.
Qed.

(** [FindTables] returns the table sets stored for the task. *)
Lemma FindTables_elem (tk : TableKeeper) (task : string) :
  ∃ res, FindTables tk task = Some res ∧
         length res = size (default ∅ (tables tk !! task)) ∧
         ∀ x, x ∈ res ↔ ∃ source, tables_lookup (tables tk) task source = Some x.
Proof.
  unfold FindTables, tables_lookup.
  destruct (tables tk !! task) as [m|] eqn:Hm; simpl.
  - destruct (SourceTablesMapToSlice_correct m) as (res & Hres & Hperm & _).
    exists res. split; [done|]. split.
    + by rewrite Hperm, length_fmap, length_map_to_list.
    + intros x. rewrite Hperm. apply elem_of_values.
  - exists []. split; [done|]. split; [done|]. intros x. split.
    + by intros ?%elem_of_nil.
    + by intros [? ?].
Qed.

(** [FindTables] returns, in increasing order of [Source], the table sets
    stored for the task, each once. *)
Lemma FindTables_perm (tk : TableKeeper) (task : string) :
  ∃ res, FindTables tk task = Some res ∧
         res ≡ₚ (map_to_list (default ∅ (tables tk !! task))).*2 ∧
         StronglySorted Source_le res.
Proof.
  unfold FindTables. destruct (tables tk !! task) as [m|]; simpl.
  - destruct (SourceTablesMapToSlice_correct m) as (res & ? & ? & ?).
    by exists res.
  - exists []. split; [done|]. rewrite map_to_list_empty.
    split; [done|constructor].
Qed.

(** The sources of a task after [Update]. *)
Lemma Update_task_map (tk : TableKeeper) (st : SourceTables) :
  default ∅ (tables (Update tk st).1 !! st_Task st)
  = if st_IsDeleted st
    then delete (st_Source st) (default ∅ (tables tk !! st_Task st))
    else <[st_Source st := st]> (default ∅ (tables tk !! st_Task st)).
Proof.
  destruct (st_IsDeleted st) eqn:Hdel.
  - destruct (tables tk !! st_Task st) as [m|] eqn:Hm.
    + by rewrite (Update_tombstone_task tk st m Hdel Hm).
    + unfold Update. rewrite Hdel, Hm. cbn [fst]. rewrite Hm. simpl.
      by rewrite delete_empty.
  - by rewrite (Update_live_key tk st Hdel).
Qed.

(** X16.  [FindTables] sees what [Update] has done: after [Update] of a
    table set, [FindTables] of its task returns exactly that table set and
    the ones the task had under other sources, each once and in increasing
    order of [Source]; after [Update] of a tombstone it returns exactly
    the ones the task had under other sources. *)
Theorem FindTables_after_Update (tk : TableKeeper) (st : SourceTables) :
  let m0 := default ∅ (tables tk !! st_Task st) in
  let m1 := if st_IsDeleted st then delete (st_Source st) m0
            else <[st_Source st := st]> m0 in
  ∃ res,
    FindTables (Update tk st).1 (st_Task st) = Some res ∧
    res ≡ₚ (map_to_list m1).*2 ∧
    length res = size m1 ∧
    StronglySorted Source_le res ∧
    ∀ x, x ∈ res ↔
         (st_IsDeleted st = false ∧ x = st) ∨
         ∃ source, source ≠ st_Source st ∧
                   tables_lookup (tables tk) (st_Task st) source = Some x.
Proof.
  intros m0 m1.
  destruct (FindTables_perm (Update tk st).1 (st_Task st))
    as (res & Hres & Hperm & Hsorted).
  destruct (FindTables_elem (Update tk st).1 (st_Task st))
    as (res' & Hres' & Hlen & Hin).
  assert (res' = res) as -> by congruence.
  rewrite Update_task_map in Hperm, Hlen. fold m0 in Hperm, Hlen.
  fold m1 in Hperm, Hlen.
  exists res. split_and!; [done|done|done|done|].
  intros x. rewrite Hin.
  destruct (st_IsDeleted st) eqn:Hdel.
  - split.
    + intros [source Hx]. right. exists source.
      rewrite (Update_tombstone_lookup tk st _ _ Hdel) in Hx.
      case_decide as Heq; [done|]. split; [congruence|done].
    + intros [[? _]|(source & Hne & Hx)]; [done|]. exists source.
      rewrite (Update_tombstone_lookup tk st _ _ Hdel).
      rewrite decide_False; congruence.
  - split.
    + intros [source Hx].
      destruct (decide (source = st_Source st)) as [->|Hne].
      * left. split; [done|]. unfold tables_lookup in Hx.
        rewrite (Update_live_key tk st Hdel) in Hx. simpl in Hx.
        rewrite lookup_insert_eq in Hx. congruence.
      * right. exists source. split; [done|].
        rewrite Update_live_others in Hx; [done|done|congruence].
    + intros [[_ ->]|(source & Hne & Hx)].
      * exists (st_Source st). unfold tables_lookup.
        rewrite (Update_live_key tk st Hdel). simpl. apply lookup_insert_eq.
      * exists source. rewrite Update_live_others; [done|done|congruence].
Qed.
End TableKeeper_more.

Lemma string_lt_antisym (a b : string) :
  string_lt a b = false → string_lt b a = false → a = b.
Proof.
  unfold string_lt, String.ltb. rewrite (String.compare_antisym b a).
  intros Hab Hba. apply String.compare_eq_iff.
  by destruct (String.compare a b).
Qed.

(** X17.  The result of [FindTables] does not depend on the order in which
    [range] enumerates the map, when the table sets of the task are stored
    under their own sources: two runs with any two enumeration orders
    return the same slice. *)
Theorem FindTables_order_independent
    (E1 E2 : GoEnv) (tk : TableKeeper) (task : string) :
  (∀ source st, tables_lookup (tables tk) task source = Some st →
                st_Source st = source) →
  @FindTables E1 tk task = @FindTables E2 tk task.
Proof.
  intros Hkey. unfold FindTables, tables_lookup in *.
  destruct (tables tk !! task) as [m|] eqn:Hm; [|done]. simpl in Hkey.
  destruct (@SourceTablesMapToSlice_correct E1 m) as (r1 & -> & Hp1 & Hs1).
  destruct (@SourceTablesMapToSlice_correct E2 m) as (r2 & -> & Hp2 & Hs2).
  f_equal. apply (StronglySorted_unique_strong Source_le); [|done|done|].
  - intros x1 x2 Hx1 Hx2 H12 H21.
    rewrite Hp1 in Hx1. rewrite Hp2 in Hx2.
    apply elem_of_values in Hx1 as [k1 Hk1].
    apply elem_of_values in Hx2 as [k2 Hk2].
    assert (st_Source x1 = st_Source x2) as Heq
      by (by apply string_lt_antisym).
    rewrite (Hkey _ _ Hk1), (Hkey _ _ Hk2) in Heq. congruence.
  - by rewrite Hp1, Hp2.
Qed.

(** ** More on the methods of [SourceTablesSlice] *)

Lemma string_lt_irrefl (a : string) : string_lt a a = false.
Proof.
  unfold string_lt, String.ltb.
  pose proof (String.compare_antisym a a) as H.
  by destruct (String.compare a a).
Qed.

Lemma string_lt_trans (a b c : string) :
  string_lt a b = true → string_lt b c = true → string_lt a c = true.
Proof.
  unfold string_lt, String.ltb.
  rewrite (String_compare_OT a b), (String_compare_OT b c),
    (String_compare_OT a c).
  destruct OrdersEx.String_as_OT.lt_strorder as [_ Htr].
  destruct (OrdersEx.String_as_OT.compare a b) eqn:Hab; try done.
  destruct (OrdersEx.String_as_OT.compare b c) eqn:Hbc; try done.
  intros _ _. by rewrite (Htr a b c Hab Hbc).
Qed.

Lemma Swap_lookup (t : SourceTablesSlice) (i j : nat) a b k :
  t !! i = Some a → t !! j = Some b →
  (<[j := a]> (<[i := b]> t)) !! k
  = if decide (k = j) then Some a else if decide (k = i) then Some b
    else t !! k.
Proof.
  intros Hi Hj.
  pose proof (lookup_lt_Some _ _ _ Hi). pose proof (lookup_lt_Some _ _ _ Hj).
  destruct (decide (k = j)) as [->|Hkj].
  - by rewrite list_lookup_insert_eq by by rewrite length_insert.
  - rewrite list_lookup_insert_ne by done.
    destruct (decide (k = i)) as [->|Hki].
    + by rewrite list_lookup_insert_eq.
    + by rewrite list_lookup_insert_ne.
Qed.

(** X18.  [Swap] with two indices of the slice exchanges the two elements
    and leaves the others and the length as they are; swapping again gives
    the slice back.  With an index out of range it panics. *)
Theorem SourceTablesSlice_Swap_exchanges (t : SourceTablesSlice) (i j : nat) :
  (i < length t → j < length t →
   ∃ t', SourceTablesSlice_Swap t i j = Some t' ∧
         length t' = length t ∧
         t' !! i = t !! j ∧ t' !! j = t !! i ∧
         (∀ k, k ≠ i → k ≠ j → t' !! k = t !! k) ∧
         SourceTablesSlice_Swap t' i j = Some t) ∧
  (length t ≤ i ∨ length t ≤ j → SourceTablesSlice_Swap t i j = None).
Proof.
  split.
  - intros Hi Hj.
    destruct (lookup_lt_is_Some_2 t i Hi) as [a Ha].
    destruct (lookup_lt_is_Some_2 t j Hj) as [b Hb].
    unfold SourceTablesSlice_Swap at 1. rewrite Ha, Hb. simpl.
    eexists. split; [done|].
    pose proof (Swap_lookup t i j a b) as Hlook.
    split_and!.
    + by rewrite !length_insert.
    + rewrite (Hlook i Ha Hb). case_decide; [subst; congruence|].
      by rewrite decide_True.
    + rewrite (Hlook j Ha Hb). by rewrite decide_True.
    + intros k Hki Hkj. rewrite (Hlook k Ha Hb).
      by rewrite !decide_False.
    + assert (Hi' : (<[j := a]> (<[i := b]> t)) !! i = Some b).
      { rewrite (Hlook i Ha Hb). case_decide; [subst; congruence|].
        by rewrite decide_True. }
      assert (Hj' : (<[j := a]> (<[i := b]> t)) !! j = Some a).
      { rewrite (Hlook j Ha Hb). by rewrite decide_True. }
      unfold SourceTablesSlice_Swap. rewrite Hi', Hj'. simpl. f_equal.
      apply list_eq. intros k.
      rewrite (Swap_lookup _ i j b a k Hi' Hj'), (Hlook k Ha Hb).
      repeat case_decide; subst; congruence.
  - intros [Hi|Hj]; unfold SourceTablesSlice_Swap.
    + by rewrite (lookup_ge_None_2 t i Hi).
    + rewrite (lookup_ge_None_2 t j Hj). by destruct (t !! i).
Qed.

(** X19.  On the indices of the slice [Less] is a strict order by
    [Source]: no element is less than itself, [Less] is asymmetric and
    transitive, and so is its complement; two elements neither of which is
    less than the other have the same [Source].  With an index out of
    range it panics. *)
Theorem SourceTablesSlice_Less_order
    (t : SourceTablesSlice) (i j k : nat) :
  (i < length t → j < length t → k < length t →
   SourceTablesSlice_Less t i i = Some false ∧
   (SourceTablesSlice_Less t i j = Some true →
    SourceTablesSlice_Less t j i = Some false) ∧
   (SourceTablesSlice_Less t i j = Some true →
    SourceTablesSlice_Less t j k = Some true →
    SourceTablesSlice_Less t i k = Some true) ∧
   (SourceTablesSlice_Less t i j = Some false →
    SourceTablesSlice_Less t j k = Some false →
    SourceTablesSlice_Less t i k = Some false) ∧
   (SourceTablesSlice_Less t i j = Some false →
    SourceTablesSlice_Less t j i = Some false →
    st_Source <$> t !! i = st_Source <$> t !! j)) ∧
  (length t ≤ i ∨ length t ≤ j → SourceTablesSlice_Less t i j = None).
Proof.
  split.
  - intros Hi Hj Hk.
    destruct (lookup_lt_is_Some_2 t i Hi) as [a Ha].
    destruct (lookup_lt_is_Some_2 t j Hj) as [b Hb].
    destruct (lookup_lt_is_Some_2 t k Hk) as [c Hc].
    unfold SourceTablesSlice_Less. rewrite Ha, Hb, Hc. simpl.
    split_and!.
    + by rewrite string_lt_irrefl.
    + intros [= Hab]. f_equal. by apply string_lt_Source_le.
    + intros [= Hab] [= Hbc]. f_equal. by eapply string_lt_trans.
    + intros [= Hab] [= Hbc]. f_equal. unfold string_lt in *.
      by eapply String_ltb_false_trans.
    + intros [= Hab] [= Hba]. f_equal. by apply string_lt_antisym.
  - intros [Hi|Hj]; unfold SourceTablesSlice_Less.
    + by rewrite (lookup_ge_None_2 t i Hi).
    + rewrite (lookup_ge_None_2 t j Hj). by destruct (t !! i).
Qed.

Lemma StronglySorted_lookup_lt {A} (R : relation A) (l : list A) :
  StronglySorted R l →
  ∀ i j a b, i < j → l !! i = Some a → l !! j = Some b → R a b.
Proof.
  induction 1 as [|x l Hs IH Hall]; intros i j a b Hij Ha Hb; [done|].
  destruct j as [|j]; [lia|]. simpl in Hb.
  destruct i as [|i]; simpl in Ha.
  - injection Ha as <-. rewrite Forall_forall in Hall.
    by eapply Hall, list_elem_of_lookup_2.
  - eapply (IH i j); [lia|done|done].
Qed.

(** X20.  Sorting a [SourceTablesSlice] through its [Len], [Less] and
    [Swap] never indexes out of range, keeps the elements and their
    number, and leaves them in increasing order of [Source]. *)
Theorem sort_Sort_SourceTablesSlice (t : SourceTablesSlice) :
  ∃ t', sort_Sort t = Some t' ∧
        t' ≡ₚ t ∧
        Len t' = Len t ∧
        StronglySorted Source_le t' ∧
        ∀ i j a b, i < j → t' !! i = Some a → t' !! j = Some b →
                   string_lt (st_Source b) (st_Source a) = false.
Proof.
  destruct (sort_Sort_correct t) as (t' & Hrun & Hperm & Hsorted).
  exists t'. split_and!; [done|done| |done|].
  - simpl. unfold SourceTablesSlice_Len. by rewrite Hperm.
  - intros i j a b Hij Ha Hb. change (Source_le a b).
    by eapply (StronglySorted_lookup_lt Source_le t' Hsorted i j).
Qed.

(** * Runs on the values of the package's tests

    An instance of the environment to run the keepers on: [TableName] as
    [dbutil] quotes a name, a [Lock] that keeps the last schema it was
    given and accepts every change, and [range] in the order of the map's
    list of entries. *)

#[local] Instance sample_env : GoEnv := {|
  TableInfo := list string;
  error := string;
  Lock := list string;
  TableName := λ schema table, ("`" +:+ schema +:+ "`.`" +:+ table +:+ "`")%string;
  NewLock := λ _ _ ti _, ti;
  Lock_TrySync := λ _ _ _ _ DDLs ti _, (ti, (DDLs, None));
  range := λ V m, map_to_list m;
  range_perm := λ V m, reflexivity (map_to_list m)
|}.

(** [NewInfo(task, source, upSchema, upTable, "foo", "bar", DDLs, nil, nil)]
    of [TestDeleteInfosOperations], and the same report from a second
    source. *)
Definition sample_info : Info :=
  {| info_Task := "test"; info_Source := "mysql-replica-1";
     info_UpSchema := "foo-1"; info_UpTable := "bar-1";
     info_DownSchema := "foo"; info_DownTable := "bar";
     info_DDLs := ["ALTER TABLE bar ADD COLUMN c1 INT"%string];
     info_TableInfoBefore := []; info_TableInfoAfter := [] |}.

Definition sample_info2 : Info :=
  {| info_Task := "test"; info_Source := "mysql-replica-2";
     info_UpSchema := "foo-2"; info_UpTable := "bar-2";
     info_DownSchema := "foo"; info_DownTable := "bar";
     info_DDLs := ["ALTER TABLE bar ADD COLUMN c1 INT"%string];
     info_TableInfoBefore := []; info_TableInfoAfter := ["c1"%string] |}.

(** [st1] of [TestSourceTablesInfo]. *)
Definition sample_st : SourceTables :=
  NewSourceTables "task" "mysql-replica-1"
    {[ "db"%string := {[ "tbl-1"%string; "tbl-2"%string ]} ]}.

(** A keeper that holds [sample_st]. *)
Definition sample_tk : TableKeeper :=
  {| tables := {[ "task"%string := {[ "mysql-replica-1"%string := sample_st ]} ]} |}.

(** A new [LockKeeper] in an otherwise empty memory. *)
Definition sample_lk : LockKeeper := {| locks := 1%positive |}.
Definition sample_mem : Mem :=
  {| lockObjs := ∅; lockMaps := {[ 1%positive := ∅ ]} |}.

Lemma sample_locks_of : locks_of sample_lk sample_mem = Some ∅.
Proof. reflexivity. Qed.

Lemma sample_keeper_ok : keeper_ok sample_lk sample_mem.
Proof.
  exists ∅. split; [reflexivity|].
  intros id v Hv. by rewrite lookup_empty in Hv.
Qed.

Lemma sample_tk_task :
  tables sample_tk !! "task"%string
  = Some {[ "mysql-replica-1"%string := sample_st ]}.
Proof. reflexivity. Qed.

Example sample_lockID : genDDLLockID sample_info = "test-`foo`.`bar`"%string.
Proof. reflexivity. Qed.

Example sample_AddTable_present :
  (AddTable sample_tk "task" "mysql-replica-1" "db" "tbl-1").2 = false.
Proof. vm_compute. reflexivity. Qed.

(** ** The statements above at these values *)

Lemma genDDLLockID_same_lock_witness :
  (info_Task sample_info = info_Task sample_info2 ∧
   info_DownSchema sample_info = info_DownSchema sample_info2 ∧
   info_DownTable sample_info = info_DownTable sample_info2) ∧
  keeper_ok sample_lk sample_mem ∧
  genDDLLockID sample_info = genDDLLockID sample_info2 ∧
  ∃ L r1 e1 σ1 r2 e2 σ2 p o1,
    TrySync sample_lk sample_info [sample_st] sample_mem
      = Some ((L, r1, e1), σ1) ∧
    TrySync sample_lk sample_info2 [sample_st] σ1 = Some ((L, r2, e2), σ2) ∧
    FindLockByInfo sample_lk sample_info σ1 = Some (Some p, σ1) ∧
    FindLockByInfo sample_lk sample_info2 σ2 = Some (Some p, σ2) ∧
    locks_of sample_lk σ2 = locks_of sample_lk σ1 ∧
    lockObjs σ1 !! p = Some o1 ∧
    (r2, e2) = (call_TrySync o1 sample_info2 [sample_st]).2 ∧
    lockObjs σ2 !! p = Some (call_TrySync o1 sample_info2 [sample_st]).1.
Proof.
  split; [by split_and!|]. split; [exact sample_keeper_ok|].
  destruct (genDDLLockID_same_lock sample_info sample_info2
              eq_refl eq_refl eq_refl) as [Hid Hrun].
  split; [exact Hid|].
  exact (Hrun sample_lk [sample_st] [sample_st] sample_mem sample_keeper_ok).
Defined.

Lemma FindLock_after_TrySync_witness :
  keeper_ok sample_lk sample_mem ∧
  ∃ L newDDLs err σ' p o,
    TrySync sample_lk sample_info [sample_st] sample_mem
      = Some ((L, newDDLs, err), σ') ∧
    FindLockByInfo sample_lk sample_info σ' = Some (Some p, σ') ∧
    FindLock sample_lk L σ' = Some (Some p, σ') ∧
    (newDDLs, err) = (call_TrySync o sample_info [sample_st]).2 ∧
    lockObjs σ' !! p = Some (call_TrySync o sample_info [sample_st]).1 ∧
    match FindLock sample_lk L sample_mem with
    | Some (Some q, _) => q = p ∧ lockObjs sample_mem !! p = Some o
    | _ => lockObjs sample_mem !! p = None ∧
           o = seeded_Lock sample_info [sample_st]
    end.
Proof.
  split; [exact sample_keeper_ok|].
  exact (FindLock_after_TrySync sample_lk sample_info [sample_st] sample_mem
           sample_keeper_ok).
Defined.

Lemma AddTable_RemoveTable_twice_witness :
  is_Some (tables sample_tk !! "task"%string) ∧
  (AddTable sample_tk "task" "mysql-replica-1" "db" "tbl-3").2
    = negb (has_table sample_tk "task" "mysql-replica-1" "db" "tbl-3") ∧
  (AddTable (AddTable sample_tk "task" "mysql-replica-1" "db" "tbl-3").1
     "task" "mysql-replica-1" "db" "tbl-3").2 = false ∧
  (RemoveTable
     (AddTable (AddTable sample_tk "task" "mysql-replica-1" "db" "tbl-3").1
        "task" "mysql-replica-1" "db" "tbl-3").1
     "task" "mysql-replica-1" "db" "tbl-3").2 = true ∧
  (RemoveTable
     (RemoveTable
        (AddTable (AddTable sample_tk "task" "mysql-replica-1" "db" "tbl-3").1
           "task" "mysql-replica-1" "db" "tbl-3").1
        "task" "mysql-replica-1" "db" "tbl-3").1
     "task" "mysql-replica-1" "db" "tbl-3").2 = false.
Proof.
  split; [by eexists|].
  exact (AddTable_RemoveTable_twice sample_tk "task" "mysql-replica-1"
           "db" "tbl-3" (ex_intro _ _ sample_tk_task)).
Defined.

(** C6 as stated does not hold: on a keeper that holds the task and
    already records the table, the first [AddTable] returns false. *)
Lemma AddTable_twice_counterexample :
  ¬ (∀ (tk : TableKeeper) (task source schema table : string),
       is_Some (tables tk !! task) →
       let tk1 := (AddTable tk task source schema table).1 in
       let tk2 := (AddTable tk1 task source schema table).1 in
       let tk3 := (RemoveTable tk2 task source schema table).1 in
       (AddTable tk task source schema table).2 = true ∧
       (AddTable tk1 task source schema table).2 = false ∧
       (RemoveTable tk2 task source schema table).2 = true ∧
       (RemoveTable tk3 task source schema table).2 = false).
Proof.
  intros Hall.
  destruct (Hall sample_tk "task" "mysql-replica-1" "db" "tbl-1"
              (ex_intro _ _ sample_tk_task)) as [Hfirst _].
  rewrite sample_AddTable_present in Hfirst. discriminate Hfirst.
Qed.

Lemma AddTable_RemoveTable_unknown_task_witness :
  tables sample_tk !! "other"%string = None ∧
  AddTable sample_tk "other" "mysql-replica-1" "db" "tbl-1" = (sample_tk, false) ∧
  RemoveTable sample_tk "other" "mysql-replica-1" "db" "tbl-1"
    = (sample_tk, false) ∧
  tables (AddTable sample_tk "other" "mysql-replica-1" "db" "tbl-1").1
    !! "other"%string = None ∧
  tables (RemoveTable sample_tk "other" "mysql-replica-1" "db" "tbl-1").1
    !! "other"%string = None.
Proof.
  split; [reflexivity|].
  exact (AddTable_RemoveTable_unknown_task sample_tk "other" "mysql-replica-1"
           "db" "tbl-1" eq_refl).
Defined.

Lemma TrySync_returns_lockID_witness :
  keeper_ok sample_lk sample_mem ∧
  ∃ newDDLs err σ',
    TrySync sample_lk sample_info [sample_st] sample_mem
      = Some ((genDDLLockID sample_info, newDDLs, err), σ') ∧
    ∀ mp, locks_of sample_lk sample_mem = Some mp →
      mp !! genDDLLockID sample_info = None →
      let p := fresh (dom (lockObjs sample_mem)) in
      let o := NewLock (genDDLLockID sample_info) (info_Task sample_info)
                 (info_TableInfoBefore sample_info) [sample_st] in
      lockObjs sample_mem !! p = None ∧
      locks_of sample_lk σ' = Some (<[genDDLLockID sample_info := Some p]> mp) ∧
      (newDDLs, err) = (call_TrySync o sample_info [sample_st]).2 ∧
      lockObjs σ' !! p = Some (call_TrySync o sample_info [sample_st]).1.
Proof.
  split; [exact sample_keeper_ok|].
  exact (TrySync_returns_lockID sample_lk sample_info [sample_st] sample_mem
           sample_keeper_ok).
Defined.

(** The tombstone of [sample_st]. *)
Definition sample_tombstone : SourceTables :=
  {| st_Task := "task"; st_Source := "mysql-replica-1";
     st_Tables := ∅; st_IsDeleted := true |}.

Lemma sample_tombstone_covers :
  ∀ src : string,
    is_Some (({[ "mysql-replica-1"%string := sample_st ]}
               : gmap string SourceTables) !! src) →
    src ∈ st_Source <$> [sample_tombstone].
Proof.
  intros src [st Hst]. apply lookup_singleton_Some in Hst as [<- _].
  simpl. apply elem_of_cons. by left.
Qed.

Lemma sample_tombstone_all :
  Forall (λ st, st_IsDeleted st = true ∧ st_Task st = "task"%string)
    [sample_tombstone].
Proof. by repeat constructor. Qed.

Lemma tombstones_keep_task_witness :
  (tables sample_tk !! "task"%string
     = Some {[ "mysql-replica-1"%string := sample_st ]} ∧
   Forall (λ st, st_IsDeleted st = true ∧ st_Task st = "task"%string)
     [sample_tombstone]) ∧
  let tk' := Update_all sample_tk [sample_tombstone] in
  let fresh_st := NewSourceTables "task" "mysql-replica-2" ∅ in
  tables tk' !! "task"%string = Some ∅ ∧
  AddTable tk' "task" "mysql-replica-2" "db" "tbl-1"
  = ({| tables := <["task"%string := {["mysql-replica-2"%string :=
                     (SourceTables_AddTable fresh_st "db" "tbl-1").1]}]>
                    (tables tk') |},
     (SourceTables_AddTable fresh_st "db" "tbl-1").2) ∧
  (SourceTables_AddTable fresh_st "db" "tbl-1").2 = true ∧
  (∀ tk0, tables tk0 !! "task"%string = None →
     AddTable tk0 "task" "mysql-replica-2" "db" "tbl-1" = (tk0, false)).
Proof.
  split; [split; [reflexivity|exact sample_tombstone_all]|].
  exact (tombstones_keep_task sample_tk "task"
           {[ "mysql-replica-1"%string := sample_st ]} [sample_tombstone]
           "mysql-replica-2" "db" "tbl-1" sample_tk_task
           sample_tombstone_all sample_tombstone_covers).
Defined.

(** ** Further values *)

(** The memory after [TrySync] of [sample_info] on the new keeper: one
    lock, at address 1. *)
Definition sample_mem_held : Mem :=
  {| lockObjs := {[ 1%positive := [] ]};
     lockMaps := {[ 1%positive := {[ "test-`foo`.`bar`"%string := Some 1%positive ]} ]} |}.

(** A report for another downstream table. *)
Definition sample_info_other : Info :=
  {| info_Task := "test"; info_Source := "mysql-replica-1";
     info_UpSchema := "foo-1"; info_UpTable := "baz-1";
     info_DownSchema := "foo"; info_DownTable := "baz";
     info_DDLs := ["ALTER TABLE baz ADD COLUMN c1 INT"%string];
     info_TableInfoBefore := []; info_TableInfoAfter := ["c1"%string] |}.

(** The environment that enumerates a map in the opposite order. *)
Definition sample_env_rev : GoEnv := {|
  TableInfo := list string;
  error := string;
  Lock := list string;
  TableName := λ schema table, ("`" +:+ schema +:+ "`.`" +:+ table +:+ "`")%string;
  NewLock := λ _ _ ti _, ti;
  Lock_TrySync := λ _ _ _ _ DDLs ti _, (ti, (DDLs, None));
  range := λ V m, reverse (map_to_list m);
  range_perm := λ V m, reverse_Permutation (map_to_list m)
|}.

Lemma sample_locks_distinct : locks_distinct sample_lk sample_mem.
Proof.
  intros mp id1 id2 p Hmp H1. rewrite sample_locks_of in Hmp.
  injection Hmp as <-. by rewrite lookup_empty in H1.
Qed.

Lemma sample_held_locks_of :
  locks_of sample_lk sample_mem_held
  = Some {[ "test-`foo`.`bar`"%string := Some 1%positive ]}.
Proof. reflexivity. Qed.

Lemma sample_held_keeper_ok : keeper_ok sample_lk sample_mem_held.
Proof.
  eexists. split; [exact sample_held_locks_of|].
  intros id v [_ <-]%lookup_singleton_Some. by exists 1%positive, [].
Qed.

Lemma sample_held_entry :
  ({[ "test-`foo`.`bar`"%string := Some 1%positive ]} : gmap string ptr)
    !! genDDLLockID sample_info = Some (Some 1%positive).
Proof. reflexivity. Qed.

Lemma sample_held_object : lockObjs sample_mem_held !! 1%positive = Some [].
Proof. reflexivity. Qed.

Lemma sample_other_lockID :
  genDDLLockID sample_info ≠ genDDLLockID sample_info_other.
Proof. discriminate. Qed.


Lemma RemoveLock_frame_witness :
  locks_of sample_lk sample_mem_held
    = Some {[ "test-`foo`.`bar`"%string := Some 1%positive ]} ∧
  ∃ existed σ' mp',
    RemoveLock sample_lk "test-`foo`.`bar`" sample_mem_held
      = Some (existed, σ') ∧
    locks_of sample_lk σ' = Some mp' ∧
    mp' !! "test-`foo`.`bar`"%string = None ∧
    FindLock sample_lk "test-`foo`.`bar`" σ' = Some (None, σ') ∧
    (∀ id, id ≠ "test-`foo`.`bar`"%string →
       mp' !! id
       = ({[ "test-`foo`.`bar`"%string := Some 1%positive ]}
            : gmap string ptr) !! id) ∧
    lockObjs σ' = lockObjs sample_mem_held ∧
    (∀ r, r ≠ locks sample_lk →
          lockMaps σ' !! r = lockMaps sample_mem_held !! r).
Proof.
  split; [reflexivity|].
  exact (RemoveLock_frame sample_lk "test-`foo`.`bar`" sample_mem_held _
           sample_held_locks_of).
Defined.

Lemma TrySync_after_RemoveLock_witness :
  (keeper_ok sample_lk sample_mem_held ∧
   locks_of sample_lk sample_mem_held
     = Some {[ "test-`foo`.`bar`"%string := Some 1%positive ]}) ∧
  ∃ σ1 newDDLs err σ2 p',
    RemoveLock sample_lk (genDDLLockID sample_info) sample_mem_held
      = Some (true, σ1) ∧
    TrySync sample_lk sample_info [sample_st] σ1
      = Some ((genDDLLockID sample_info, newDDLs, err), σ2) ∧
    FindLockByInfo sample_lk sample_info σ2 = Some (Some p', σ2) ∧
    p' ≠ 1%positive ∧
    lockObjs σ2 !! 1%positive = lockObjs sample_mem_held !! 1%positive ∧
    (newDDLs, err)
      = (call_TrySync (seeded_Lock sample_info [sample_st]) sample_info
           [sample_st]).2 ∧
    lockObjs σ2 !! p'
      = Some (call_TrySync (seeded_Lock sample_info [sample_st]) sample_info
                [sample_st]).1.
Proof.
  split; [split; [exact sample_held_keeper_ok|reflexivity]|].
  exact (TrySync_after_RemoveLock sample_lk sample_info [sample_st]
           sample_mem_held _ 1%positive sample_held_keeper_ok
           sample_held_locks_of sample_held_entry).
Defined.

Lemma Locks_shares_locks_witness :
  (locks_of sample_lk sample_mem_held
     = Some {[ "test-`foo`.`bar`"%string := Some 1%positive ]} ∧
   lockObjs sample_mem_held !! 1%positive = Some []) ∧
  ∃ r σ1 res σ2,
    Locks sample_lk sample_mem_held = Some (r, σ1) ∧
    TrySync sample_lk sample_info2 [sample_st] σ1 = Some (res, σ2) ∧
    lockMaps σ2 !! r
      = Some {[ "test-`foo`.`bar`"%string := Some 1%positive ]} ∧
    lockObjs σ1 !! 1%positive = Some [] ∧
    lockObjs σ2 !! 1%positive
      = Some (call_TrySync [] sample_info2 [sample_st]).1.
Proof.
  split; [split; reflexivity|].
  exact (Locks_shares_locks sample_lk sample_info2 [sample_st]
           sample_mem_held _ 1%positive [] sample_held_locks_of
           sample_held_entry sample_held_object).
Defined.

Lemma TrySync_separate_locks_witness :
  (keeper_ok sample_lk sample_mem ∧ locks_distinct sample_lk sample_mem ∧
   genDDLLockID sample_info ≠ genDDLLockID sample_info_other) ∧
  ∃ res1 σ1 res2 σ2 p1 p2,
    TrySync sample_lk sample_info [sample_st] sample_mem = Some (res1, σ1) ∧
    TrySync sample_lk sample_info_other [sample_st] σ1 = Some (res2, σ2) ∧
    FindLockByInfo sample_lk sample_info σ2 = Some (Some p1, σ2) ∧
    FindLockByInfo sample_lk sample_info_other σ2 = Some (Some p2, σ2) ∧
    p1 ≠ p2 ∧
    is_Some (lockObjs σ1 !! p1) ∧
    lockObjs σ2 !! p1 = lockObjs σ1 !! p1.
Proof.
  split; [split_and!; [exact sample_keeper_ok|exact sample_locks_distinct|
                       exact sample_other_lockID]|].
  exact (TrySync_separate_locks sample_lk sample_info sample_info_other
           [sample_st] [sample_st] sample_mem sample_keeper_ok
           sample_locks_distinct sample_other_lockID).
Defined.

Lemma FindLock_reads_witness :
  keeper_ok sample_lk sample_mem_held ∧
  ∃ mp l l',
    locks_of sample_lk sample_mem_held = Some mp ∧
    FindLock sample_lk "test-`foo`.`bar`" sample_mem_held
      = Some (l, sample_mem_held) ∧
    FindLockByInfo sample_lk sample_info_other sample_mem_held
      = Some (l', sample_mem_held) ∧
    (l = None ↔ mp !! "test-`foo`.`bar`"%string = None) ∧
    (l' = None ↔ mp !! genDDLLockID sample_info_other = None) ∧
    (∀ p, l = Some p →
          mp !! "test-`foo`.`bar`"%string = Some (Some p) ∧
          is_Some (lockObjs sample_mem_held !! p)).
Proof.
  split; [exact sample_held_keeper_ok|].
  exact (FindLock_reads sample_lk "test-`foo`.`bar`" sample_info_other
           sample_mem_held sample_held_keeper_ok).
Defined.

Lemma Update_live_frame_witness :
  st_IsDeleted sample_st = false ∧
  (∀ task source, (task, source) ≠ (st_Task sample_st, st_Source sample_st) →
     tables_lookup (tables (Update NewTableKeeper sample_st).1) task source
     = tables_lookup (tables NewTableKeeper) task source) ∧
  tables (Update NewTableKeeper sample_st).1 !! st_Task sample_st
  = Some (<[st_Source sample_st := sample_st]>
            (default ∅ (tables NewTableKeeper !! st_Task sample_st))) ∧
  (∀ task, task ≠ st_Task sample_st →
     tables (Update NewTableKeeper sample_st).1 !! task
     = tables NewTableKeeper !! task).
Proof.
  split; [reflexivity|].
  exact (Update_live_frame NewTableKeeper sample_st eq_refl).
Defined.

Lemma Update_then_tombstone_witness :
  (st_IsDeleted sample_st = false ∧ st_IsDeleted sample_tombstone = true ∧
   st_Task sample_tombstone = st_Task sample_st ∧
   st_Source sample_tombstone = st_Source sample_st) ∧
  let tk1 := (Update NewTableKeeper sample_st).1 in
  let tk2 := (Update tk1 sample_tombstone).1 in
  (Update NewTableKeeper sample_st).2 = true ∧
  (Update tk1 sample_tombstone).2 = true ∧
  tables_lookup (tables tk2) (st_Task sample_st) (st_Source sample_st) = None ∧
  (∀ task source, (task, source) ≠ (st_Task sample_st, st_Source sample_st) →
     tables_lookup (tables tk2) task source
     = tables_lookup (tables NewTableKeeper) task source) ∧
  is_Some (tables tk2 !! st_Task sample_st).
Proof.
  split; [by split_and!|].
  exact (Update_then_tombstone NewTableKeeper sample_st sample_tombstone
           eq_refl eq_refl eq_refl eq_refl).
Defined.

(** ** A keeper that holds locks, and a task with two sources *)

(** The keeper's map with two locks, and a memory that holds it. *)
Definition sample_two_locks : gmap string ptr :=
  {[ "test-`foo`.`bar`"%string := Some 1%positive;
     "test-`foo`.`baz`"%string := Some 2%positive ]}.

Definition sample_mem_two : Mem :=
  {| lockObjs := {[ 1%positive := []; 2%positive := ["c1"%string] ]};
     lockMaps := {[ 1%positive := sample_two_locks ]} |}.

Lemma sample_two_locks_of :
  locks_of sample_lk sample_mem_two = Some sample_two_locks.
Proof. reflexivity. Qed.

Lemma sample_two_lookup id v :
  sample_two_locks !! id = Some v →
  (id = "test-`foo`.`bar`"%string ∧ v = Some 1%positive) ∨
  (id = "test-`foo`.`baz`"%string ∧ v = Some 2%positive).
Proof.
  unfold sample_two_locks. intros [[<- <-]|[_ H]]%lookup_insert_Some.
  - by left.
  - apply lookup_singleton_Some in H as [<- <-]. by right.
Qed.

Lemma sample_two_keeper_ok : keeper_ok sample_lk sample_mem_two.
Proof.
  exists sample_two_locks. split; [reflexivity|].
  intros id v [[_ ->]|[_ ->]]%sample_two_lookup.
  - by exists 1%positive, [].
  - by exists 2%positive, ["c1"%string].
Qed.

Lemma sample_two_locks_distinct : locks_distinct sample_lk sample_mem_two.
Proof.
  intros mp id1 id2 p Hmp H1 H2. rewrite sample_two_locks_of in Hmp.
  injection Hmp as <-.
  apply sample_two_lookup in H1 as [[-> [= ->]]|[-> [= ->]]];
    apply sample_two_lookup in H2 as [[-> ?]|[-> ?]]; congruence.
Qed.

Example sample_two_locks_size : size sample_two_locks = 2.
Proof. reflexivity. Qed.

Lemma RemoveLock_count_witness :
  (locks_of sample_lk sample_mem_two = Some sample_two_locks ∧
   is_Some (sample_two_locks !! "test-`foo`.`bar`"%string) ∧
   sample_two_locks !! "test-`bar`.`foo`"%string = None) ∧
  (∃ σ' mp',
     RemoveLock sample_lk "test-`foo`.`bar`" sample_mem_two = Some (true, σ') ∧
     locks_of sample_lk σ' = Some mp' ∧
     S (size mp') = size sample_two_locks ∧
     ∃ σ'', RemoveLock sample_lk "test-`foo`.`bar`" σ' = Some (false, σ'') ∧
            locks_of sample_lk σ'' = Some mp') ∧
  (∃ σ' mp',
     RemoveLock sample_lk "test-`bar`.`foo`" sample_mem_two = Some (false, σ') ∧
     locks_of sample_lk σ' = Some mp' ∧
     size mp' = size sample_two_locks).
Proof.
  split; [split_and!; [reflexivity|by eexists|reflexivity]|]. split.
  - destruct (RemoveLock_count sample_lk "test-`foo`.`bar`" sample_mem_two
                sample_two_locks sample_two_locks_of)
      as (existed & σ' & mp' & Hrun & Hmp' & _ & Hheld & Hagain).
    destruct Hheld as [-> Hsize]; [by eexists|].
    exists σ', mp'. split; [exact Hrun|]. split; [exact Hmp'|].
    split; [exact Hsize|exact Hagain].
  - destruct (RemoveLock_count sample_lk "test-`bar`.`foo`" sample_mem_two
                sample_two_locks sample_two_locks_of)
      as (existed & σ' & mp' & Hrun & Hmp' & Habsent & _ & _).
    destruct Habsent as [-> Hsize]; [reflexivity|].
    exists σ', mp'. split; [exact Hrun|]. split; [exact Hmp'|exact Hsize].
Defined.

Lemma Locks_independent_copy_witness :
  locks_of sample_lk sample_mem_two = Some sample_two_locks ∧
  ∃ r σ',
    Locks sample_lk sample_mem_two = Some (r, σ') ∧
    lockMaps sample_mem_two !! r = None ∧
    r ≠ locks sample_lk ∧
    lockMaps σ' !! r = Some sample_two_locks ∧
    locks_of sample_lk σ' = Some sample_two_locks ∧
    lockObjs σ' = lockObjs sample_mem_two ∧
    (∀ τ m k v, lockMaps τ !! r = Some m →
       ∃ τ', map_set r k v τ = Some ((), τ') ∧
             lockMaps τ' !! r = Some (<[k := v]> m) ∧
             locks_of sample_lk τ' = locks_of sample_lk τ) ∧
    (∀ τ m k, lockMaps τ !! r = Some m →
       ∃ τ', map_delete r k τ = Some ((), τ') ∧
             lockMaps τ' !! r = Some (delete k m) ∧
             locks_of sample_lk τ' = locks_of sample_lk τ) ∧
    (∀ τ info sts, keeper_ok sample_lk τ →
       ∃ res τ', TrySync sample_lk info sts τ = Some (res, τ') ∧
                 lockMaps τ' !! r = lockMaps τ !! r) ∧
    (∀ τ m lockID, locks_of sample_lk τ = Some m →
       ∃ existed τ', RemoveLock sample_lk lockID τ = Some (existed, τ') ∧
                     lockMaps τ' !! r = lockMaps τ !! r).
Proof.
  split; [reflexivity|].
  exact (Locks_independent_copy sample_lk sample_mem_two sample_two_locks
           sample_two_locks_of).
Defined.

(** [Locks] on the keeper with two locks: the copy is at address 2.  A
    store into the copy and then a [RemoveLock] on the keeper leave each
    map with its own entries. *)
Definition sample_mem_copied : Mem :=
  {| lockObjs := lockObjs sample_mem_two;
     lockMaps := {[ 1%positive := sample_two_locks;
                    2%positive := sample_two_locks ]} |}.

Example sample_Locks_run :
  Locks sample_lk sample_mem_two = Some (2%positive, sample_mem_copied) ∧
  ('(_, σ2) ← map_set 2%positive "test-`foo`.`qux`" None sample_mem_copied;
   RemoveLock sample_lk "test-`foo`.`bar`" σ2)
  = Some (true,
          {| lockObjs := lockObjs sample_mem_two;
             lockMaps :=
               {[ 1%positive := {[ "test-`foo`.`baz`"%string := Some 2%positive ]};
                  2%positive := <["test-`foo`.`qux`"%string := None]>
                                  sample_two_locks ]} |}).
Proof. split; vm_compute; reflexivity. Qed.

Lemma LockKeeper_invariant_witness :
  (keeper_ok sample_lk sample_mem_two ∧
   locks_distinct sample_lk sample_mem_two) ∧
  (∃ res σ', TrySync sample_lk sample_info_other [sample_st] sample_mem_two
               = Some (res, σ') ∧
             keeper_ok sample_lk σ' ∧ locks_distinct sample_lk σ') ∧
  (∃ existed σ', RemoveLock sample_lk "test-`foo`.`bar`" sample_mem_two
                   = Some (existed, σ') ∧
                 keeper_ok sample_lk σ' ∧ locks_distinct sample_lk σ') ∧
  (∃ r σ', Locks sample_lk sample_mem_two = Some (r, σ') ∧
           keeper_ok sample_lk σ' ∧ locks_distinct sample_lk σ').
Proof.
  split; [split; [exact sample_two_keeper_ok|exact sample_two_locks_distinct]|].
  exact (LockKeeper_invariant sample_lk sample_mem_two sample_info_other
           [sample_st] "test-`foo`.`bar`" sample_two_keeper_ok
           sample_two_locks_distinct).
Defined.

(** A keeper with two sources of one task. *)
Definition sample_st2 : SourceTables :=
  NewSourceTables "task" "mysql-replica-2"
    {[ "db"%string := {[ "tbl-2"%string; "tbl-3"%string ]} ]}.

Definition sample_tk2 : TableKeeper :=
  (Update (Update NewTableKeeper sample_st2).1 sample_st).1.

Definition sample_two_sources : gmap string SourceTables :=
  {[ "mysql-replica-1"%string := sample_st;
     "mysql-replica-2"%string := sample_st2 ]}.

Lemma sample_tk2_task :
  tables sample_tk2 !! "task"%string = Some sample_two_sources.
Proof. vm_compute. reflexivity. Qed.

Lemma sample_tk2_keyed :
  ∀ source st,
    tables_lookup (tables sample_tk2) "task" source = Some st →
    st_Source st = source.
Proof.
  intros source st. unfold tables_lookup. rewrite sample_tk2_task. simpl.
  unfold sample_two_sources. intros [[<- <-]|[_ H]]%lookup_insert_Some.
  - done.
  - by apply lookup_singleton_Some in H as [<- <-].
Qed.

(** The two environments enumerate the two sources in different orders. *)
Example sample_range_differs :
  @range sample_env _ sample_two_sources
  ≠ @range sample_env_rev _ sample_two_sources.
Proof. vm_compute. discriminate. Qed.

Example sample_FindTables :
  @FindTables sample_env sample_tk2 "task" = Some [sample_st; sample_st2] ∧
  @FindTables sample_env_rev sample_tk2 "task" = Some [sample_st; sample_st2] ∧
  @FindTables sample_env sample_tk2 "other" = Some [].
Proof. vm_compute. done. Qed.

Lemma FindTables_order_independent_witness :
  (∀ source st,
     tables_lookup (tables sample_tk2) "task" source = Some st →
     st_Source st = source) ∧
  @range sample_env _ sample_two_sources
    ≠ @range sample_env_rev _ sample_two_sources ∧
  @FindTables sample_env sample_tk2 "task"
  = @FindTables sample_env_rev sample_tk2 "task".
Proof.
  split; [exact sample_tk2_keyed|]. split; [exact sample_range_differs|].
  exact (FindTables_order_independent sample_env sample_env_rev sample_tk2
           "task" sample_tk2_keyed).
Defined.
